(** * Schnorr proofs and the EdDSA signing round 3 of tss-lib

    A shallow embedding of [crypto/schnorr] (the discrete-log and the
    dual-exponent proofs) and of [eddsa/signing/round_3.go], with the
    properties the design document states about them.

    Go pointers that may be nil are [option]s; a run-time panic (nil
    dereference, index out of range, an explicit [panic]) is an outcome of
    its own, distinct from a returned Go [error]. *)

From Stdlib Require Import ZArith List String Lia Bool.
From Stdlib.Strings Require Import Byte.
From stdpp Require Import base list.
Import ListNotations.

Open Scope Z_scope.

(** ** Go run-time behaviour *)

Module Go.

(** The result of running a Go function body: it returns a value, or the
    goroutine panics with a message. *)
Inductive outcome (A : Type) : Type :=
| Ret (a : A)
| Panic (msg : string).
Arguments Ret {A} a.
Arguments Panic {A} msg%_string.

Definition bind {A B} (m : outcome A) (k : A -> outcome B) : outcome B :=
  match m with
  | Ret a => k a
  | Panic msg => Panic msg
  end.

Definition nil_deref : string :=
  "invalid memory address or nil pointer dereference".
Definition index_out_of_range : string := "index out of range".

(** Reading through a pointer: a nil pointer panics. *)
Definition deref {A} (p : option A) : outcome A :=
  match p with
  | Some a => Ret a
  | None => Panic nil_deref
  end.

(** [s[j]] on a slice. *)
Definition index {A} (s : list A) (j : nat) : outcome A :=
  match s !! j with
  | Some a => Ret a
  | None => Panic index_out_of_range
  end.

(** Go errors are carried by their message. *)
Definition error : Type := string.
Bind Scope string_scope with error.

Definition bytes := list byte.

(** [[n]byte]: a byte array of a fixed length. *)
Definition array (n : nat) : Type := { l : bytes | length l = n }.
Definition slice_of {n} (a : array n) : bytes := proj1_sig a.

Definition byte_of_Z (z : Z) : byte :=
  match Byte.of_N (Z.to_N (z mod 256)) with
  | Some b => b
  | None => x00
  end.

(** Big-endian digits in base 256, most significant first. *)
Fixpoint be_digits (fuel : nat) (n : Z) (acc : bytes) : bytes :=
  match fuel with
  | O => acc
  | S fuel' =>
      if n =? 0 then acc
      else be_digits fuel' (n / 256) (byte_of_Z n :: acc)
  end.

(** [big.Int.Bytes]: the big-endian bytes of the absolute value, with no
    leading zero byte; the empty slice for zero. *)
Definition bigInt_Bytes (x : Z) : bytes :=
  be_digits (Z.to_nat (Z.log2 (Z.abs x) + 1)) (Z.abs x) [].

(** [big.Int.FillBytes]: the absolute value as a zero-extended
    big-endian slice of the length of [buf]; panics when it does not fit. *)
Definition bigInt_FillBytes (x : Z) (len : nat) : outcome bytes :=
  let b := bigInt_Bytes x in
  if (length b <=? len)%nat
  then Ret (repeat x00 (len - length b) ++ b)
  else Panic "math/big: buffer too small to fit value".

(** [make([]byte, n)] for an [int] n. *)
Definition make_bytes (n : Z) : outcome nat :=
  if n <? 0 then Panic "makeslice: len out of range" else Ret (Z.to_nat n).

(** [copy(dst[:], src)] into a zeroed array of [n] bytes. *)
Definition copy_into (n : nat) (src : bytes) : bytes :=
  take n src ++ repeat x00 (n - length src).

Definition copy_into_length (n : nat) (src : bytes) :
  length (copy_into n src) = n.
Proof.
  unfold copy_into. rewrite length_app, length_take, repeat_length. lia.
Defined.

Definition copy_array (n : nat) (src : bytes) : array n :=
  exist _ (copy_into n src) (copy_into_length n src).

(** [new(big.Int).Mul(x, y)] on possibly nil operands. *)
Definition bigInt_Mul (x y : option Z) : outcome Z :=
  match x, y with
  | Some a, Some b => Ret (a * b)
  | _, _ => Panic nil_deref
  end.

End Go.

Import Go.

Notation "'let*' x ':=' m 'in' k" := (Go.bind m (fun x => k))
  (at level 10, x pattern, m at level 100, k at level 200).

(** ** The group primitive and the hash, as the proofs use them

    [crypto.ECPoint], [common] and the curve arithmetic are collaborators of
    the schnorr package; the proofs are stated for any implementation. *)

Class CryptoLib : Type := {
  (** [elliptic.Curve] *)
  Curve : Type;
  (** what a non-nil pointer to [crypto.ECPoint] points to *)
  ECPoint : Type;
  (** the state of an [io.Reader] used as randomness source *)
  Reader : Type;
  P_Curve : ECPoint -> Curve;
  P_X : ECPoint -> Z;
  P_Y : ECPoint -> Z;
  Params_N : Curve -> Z;
  Params_Gx : Curve -> Z;
  Params_Gy : Curve -> Z;
  NewECPointNoCurveCheck : Curve -> Z -> Z -> ECPoint;
  (** [crypto.NewECPoint]: the point, or no point and an error *)
  NewECPoint : Curve -> Z -> Z -> ECPoint + error;
  (** point validation of a non-nil point *)
  validate : ECPoint -> bool;
  validateBJJ : ECPoint -> bool;
  ScalarBaseMult : Curve -> Z -> ECPoint;
  ScalarBaseMultBJJ : Curve -> Z -> ECPoint;
  ScalarMult : ECPoint -> Z -> ECPoint;
  (** [ECPoint.Add]: the sum, or no point and an error *)
  Add : ECPoint -> ECPoint -> ECPoint + error;
  EightInvEight : ECPoint -> ECPoint;
  (** [common.GetRandomPositiveInt(rand, q)]: the draw and the reader after it *)
  GetRandomPositiveInt : Reader -> Z -> Z * Reader;
  (** [common.SHA512_256i_TAGGED(tag, ints...)] *)
  SHA512_256i_TAGGED : bytes -> list Z -> Z;
  (** [common.RejectionSample(q, hash)] *)
  RejectionSample : Z -> Z -> Z;
}.

(** ** crypto/schnorr *)

Module Schnorr.
Section WithLib.
Context {lib : CryptoLib}.

(** [ZKProof{Alpha *crypto.ECPoint; T *big.Int}] *)
Record ZKProof : Type := mkZKProof {
  Alpha : option ECPoint;
  T : option Z;
}.

(** [ZKVProof{Alpha *crypto.ECPoint; T, U *big.Int}] *)
Record ZKVProof : Type := mkZKVProof {
  VAlpha : option ECPoint;
  VT : option Z;
  VU : option Z;
}.

(** [ECPoint.ValidateBasic] and its BJJ variant on a possibly nil
    receiver.
    Modelled from the spec: the methods themselves are not part of the
    package; a null point fails validation, as the constructors' error
    message (nil or invalid value(s)) says. *)
Definition ValidateBasic (p : option ECPoint) : bool :=
  match p with
  | Some P => validate P
  | None => false
  end.

Definition ValidateBasicBJJ (p : option ECPoint) : bool :=
  match p with
  | Some P => validateBJJ P
  | None => false
  end.

(** Modelled from the spec: [common.ModInt(q).Add(a, b)], the response
    a + b reduced mod q. *)
Definition ModInt_Add (q a b : Z) : Z := (a + b) mod q.

Definition is_nil {A} (p : option A) : bool :=
  match p with
  | Some _ => false
  | None => true
  end.

(** The challenge of the discrete-log proof: the tagged hash of the session,
    X, g and Alpha, folded into the scalar range by rejection sampling. *)
Definition challenge (Session : bytes) (q : Z) (X g alpha : ECPoint) : Z :=
  let cHash :=
    SHA512_256i_TAGGED Session
      [P_X X; P_Y X; P_X g; P_Y g; P_X alpha; P_Y alpha] in
  RejectionSample q cHash.

(** The challenge of the dual-exponent proof. *)
Definition challengeV (Session : bytes) (q : Z) (V R g alpha : ECPoint) : Z :=
  let cHash :=
    SHA512_256i_TAGGED Session
      [P_X V; P_Y V; P_X R; P_Y R; P_X g; P_Y g; P_X alpha; P_Y alpha] in
  RejectionSample q cHash.

Definition errBJJ : error :=
  "BJJ ZKProof constructor received nil or invalid value(s)".
Definition errZKProof : error :=
  "ZKProof constructor received nil or invalid value(s)".
Definition errZKVProof : error :=
  "ZKVProof constructor received nil value(s)".

(** [NewZKProofBJJ]. Only the point is validated; the nil check on [x] is
    commented out in the source. *)
Definition NewZKProofBJJ (Session : bytes) (x : option Z) (X : option ECPoint)
    (rand : Reader) : outcome ((option ZKProof * option error) * Reader) :=
  if negb (ValidateBasicBJJ X) then Ret ((None, Some errBJJ), rand)
  else
    let* Xp := deref X in
    let ec := P_Curve Xp in
    let q := Params_N ec in
    let g := NewECPointNoCurveCheck ec (Params_Gx ec) (Params_Gy ec) in
    let '(a, rand') := GetRandomPositiveInt rand q in
    let alpha := ScalarBaseMultBJJ ec a in
    let c := challenge Session q Xp g alpha in
    let* t := bigInt_Mul (Some c) x in
    let t := ModInt_Add q a t in
    Ret ((Some (mkZKProof (Some alpha) (Some t)), None), rand').

(** [NewZKProof]. (The source also prints its arguments on standard output,
    which is not part of the result.) *)
Definition NewZKProof (Session : bytes) (x : option Z) (X : option ECPoint)
    (rand : Reader) : outcome ((option ZKProof * option error) * Reader) :=
  if is_nil x || is_nil X || negb (ValidateBasic X)
  then Ret ((None, Some errZKProof), rand)
  else
    let* Xp := deref X in
    let ec := P_Curve Xp in
    let q := Params_N ec in
    let g := NewECPointNoCurveCheck ec (Params_Gx ec) (Params_Gy ec) in
    let '(a, rand') := GetRandomPositiveInt rand q in
    let alpha := ScalarBaseMult ec a in
    let c := challenge Session q Xp g alpha in
    let* t := bigInt_Mul (Some c) x in
    let t := ModInt_Add q a t in
    Ret ((Some (mkZKProof (Some alpha) (Some t)), None), rand').

(** [ZKProof.ValidateBasic] *)
Definition ZKProof_ValidateBasic (pf : ZKProof) : bool :=
  negb (is_nil (T pf)) && negb (is_nil (Alpha pf)).

(** Equality of two points on both affine coordinates. *)
Definition same_coords (P Q : ECPoint) : bool :=
  (P_X P =? P_X Q) && (P_Y P =? P_Y Q).

(** [ZKProof.Verify] *)
Definition ZKProof_Verify (pf : option ZKProof) (Session : bytes)
    (X : option ECPoint) : outcome bool :=
  match pf with
  | None => Ret false
  | Some p =>
      if negb (ZKProof_ValidateBasic p) then Ret false
      else
        let* Xp := deref X in
        let ec := P_Curve Xp in
        let q := Params_N ec in
        let g := NewECPointNoCurveCheck ec (Params_Gx ec) (Params_Gy ec) in
        let* alpha := deref (Alpha p) in
        let c := challenge Session q Xp g alpha in
        let* t := deref (T p) in
        let tG := ScalarBaseMult ec t in
        let Xc := ScalarMult Xp c in
        match Add alpha Xc with
        | inr _ => Ret false
        | inl aXc => Ret (same_coords aXc tG)
        end
  end.

(** [NewZKVProof] *)
Definition NewZKVProof (Session : bytes) (V R : option ECPoint)
    (s l : option Z) (rand : Reader)
    : outcome ((option ZKVProof * option error) * Reader) :=
  if is_nil V || is_nil R || is_nil s || is_nil l
     || negb (ValidateBasic V) || negb (ValidateBasic R)
  then Ret ((None, Some errZKVProof), rand)
  else
    let* Vp := deref V in
    let* Rp := deref R in
    let ec := P_Curve Vp in
    let q := Params_N ec in
    let g := NewECPointNoCurveCheck ec (Params_Gx ec) (Params_Gy ec) in
    let '(a, rand1) := GetRandomPositiveInt rand q in
    let '(b, rand2) := GetRandomPositiveInt rand1 q in
    let aR := ScalarMult Rp a in
    let bG := ScalarBaseMult ec b in
    (* the error of Add is discarded: alpha is nil when it fails *)
    let alpha := match Add aR bG with inl p => Some p | inr _ => None end in
    let* alphap := deref alpha in
    let c := challengeV Session q Vp Rp g alphap in
    let* cs := bigInt_Mul (Some c) s in
    let t := ModInt_Add q a cs in
    let* cl := bigInt_Mul (Some c) l in
    let u := ModInt_Add q b cl in
    Ret ((Some (mkZKVProof alpha (Some t) (Some u)), None), rand2).

(** [ZKVProof.ValidateBasic] *)
Definition ZKVProof_ValidateBasic (pf : ZKVProof) : bool :=
  negb (is_nil (VAlpha pf)) && negb (is_nil (VT pf)) && negb (is_nil (VU pf))
  && ValidateBasic (VAlpha pf).

(** [ZKVProof.Verify] *)
Definition ZKVProof_Verify (pf : option ZKVProof) (Session : bytes)
    (V R : option ECPoint) : outcome bool :=
  match pf with
  | None => Ret false
  | Some p =>
      if negb (ZKVProof_ValidateBasic p) then Ret false
      else
        let* Vp := deref V in
        let ec := P_Curve Vp in
        let q := Params_N ec in
        let g := NewECPointNoCurveCheck ec (Params_Gx ec) (Params_Gy ec) in
        let* Rp := deref R in
        let* alpha := deref (VAlpha p) in
        let c := challengeV Session q Vp Rp g alpha in
        let* t := deref (VT p) in
        let tR := ScalarMult Rp t in
        let* u := deref (VU p) in
        let uG := ScalarBaseMult ec u in
        (* the error of this Add is discarded: tRuG is nil when it fails *)
        let tRuG := match Add tR uG with inl p => Some p | inr _ => None end in
        let Vc := ScalarMult Vp c in
        match Add alpha Vc with
        | inr _ => Ret false
        | inl aVc =>
            let* s := deref tRuG in
            Ret (same_coords s aVc)
        end
  end.

End WithLib.
End Schnorr.

(** ** eddsa/signing, round 3 *)

(** The collaborators of the signing round: the edwards25519 arithmetic, the
    commitment scheme, the sponge hash and the encoding helpers of the
    signing package. *)
Class SigningLib {lib : CryptoLib} : Type := {
  (** [edwards25519.ExtendedGroupElement] *)
  ExtendedGroupElement : Type;
  (** [commitments.HashCommitment] and [commitments.HashDeCommitment] *)
  HashCommitment : Type;
  HashDeCommitment : Type;
  (** the payload of a round 2 message *)
  SignRound2Message : Type;
  GeScalarMultBase : array 32 -> ExtendedGroupElement;
  ToBytes : ExtendedGroupElement -> array 32;
  ScReduce : array 64 -> array 32;
  ScMulAdd : array 32 -> array 32 -> array 32 -> array 32;
  bigIntToEncodedBytes : Z -> array 32;
  encodedBytesToBigInt : array 32 -> Z;
  ecPointToEncodedBytes : Z -> Z -> array 32;
  (** draws the representation's randomness from the reader *)
  ecPointToExtendedElement :
    Curve -> Z -> Z -> Reader -> ExtendedGroupElement * Reader;
  addExtendedElements :
    ExtendedGroupElement -> ExtendedGroupElement -> ExtendedGroupElement;
  AppendBigIntToBytesSlice : bytes -> Z -> bytes;
  (** [HashCommitDecommit{C, D}.DeCommit()] *)
  DeCommit : HashCommitment -> HashDeCommitment -> bool * list Z;
  UnmarshalDeCommitment : SignRound2Message -> HashDeCommitment;
  UnmarshalZKProof :
    SignRound2Message -> Curve -> option Schnorr.ZKProof * option error;
  (** [poseidon.HashBytes] *)
  poseidon_HashBytes : bytes -> Z + error;
}.

(** ** What the collaborators are assumed to satisfy *)

(** Modelled from the spec: the group primitive (scalar multiplication by
    the base point, scalar multiplication and addition of points), which is
    outside the package and assumed correct. The multiples of the base point
    form a cyclic group whose order is the curve's N. *)
Class GroupLaws (lib : CryptoLib) : Prop := {
  base_add : forall ec a b,
    Add (ScalarBaseMult ec a) (ScalarBaseMult ec b)
    = inl (ScalarBaseMult ec (a + b));
  base_mult : forall ec x c,
    ScalarMult (ScalarBaseMult ec x) c = ScalarBaseMult ec (x * c);
  base_order : forall ec k,
    ScalarBaseMult ec (k mod Params_N ec) = ScalarBaseMult ec k;
}.

(** Two extended elements denote the same point when they encode to the same
    bytes. *)
Definition same_point {lib : CryptoLib} {slib : SigningLib}
    (e1 e2 : ExtendedGroupElement) : Prop :=
  ToBytes e1 = ToBytes e2.

(** Modelled from the spec: the edwards25519 arithmetic and the helpers
    [ecPointToExtendedElement] and [addExtendedElements] of the signing
    package, which are defined outside round_3.go. The accumulation of R
    is group addition: commutative and associative on points, whatever their
    representation; and the conversion of an affine point denotes that point
    for every draw of the representation's randomness. *)
Class AggregationLaws (lib : CryptoLib) (slib : SigningLib) : Prop := {
  add_proper : forall e1 e1' e2 e2',
    same_point e1 e1' -> same_point e2 e2' ->
    same_point (addExtendedElements e1 e2) (addExtendedElements e1' e2');
  add_comm : forall e1 e2,
    same_point (addExtendedElements e1 e2) (addExtendedElements e2 e1);
  add_assoc : forall e1 e2 e3,
    same_point (addExtendedElements (addExtendedElements e1 e2) e3)
               (addExtendedElements e1 (addExtendedElements e2 e3));
  representation_free : forall ec x y rand rand',
    same_point (fst (ecPointToExtendedElement ec x y rand))
               (fst (ecPointToExtendedElement ec x y rand'));
}.

Module Signing.

(** [tss.PartyID]: the identity of a party and its index in the sorted list
    of parties. *)
Record PartyID : Type := mkPartyID {
  Id : string;
  Index : Z;
}.

(** [tss.Error]: the cause, the round that failed, the party that noticed and
    the parties blamed for it. *)
Record tssError : Type := mkError {
  cause : error;
  task : string;
  round_number : Z;
  victim : PartyID;
  culprits : list PartyID;
}.

(** The control flow of a function body that may go on, return a
    [*tss.Error] early, or panic. *)
Inductive flow (A : Type) : Type :=
| Next (a : A)
| Abort (e : tssError)
| Crash (msg : string).
Arguments Next {A} a.
Arguments Abort {A} e.
Arguments Crash {A} msg%_string.

Definition flow_bind {A B} (m : flow A) (k : A -> flow B) : flow B :=
  match m with
  | Next a => k a
  | Abort e => Abort e
  | Crash msg => Crash msg
  end.

Definition lift {A} (m : outcome A) : flow A :=
  match m with
  | Ret a => Next a
  | Panic msg => Crash msg
  end.

Notation "'let+' x ':=' m 'in' k" := (flow_bind m (fun x => k))
  (at level 10, x pattern, m at level 100, k at level 200).

(** [errors.Wrap(err, msg)] *)
Definition errors_Wrap (err : error) (msg : string) : error :=
  (msg ++ ": " ++ err)%string.

Definition empty_slice_msg : string :=
  "empty slice detected in Poseidon inputs".

(** The first loop of [flattenByteSlices]: the total length, with a panic on
    the first empty slice. *)
Fixpoint totalLength (slices : list bytes) (acc : nat) : outcome nat :=
  match slices with
  | [] => Ret acc
  | slice :: rest =>
      if (length slice =? 0)%nat then Panic empty_slice_msg
      else totalLength rest (acc + length slice)%nat
  end.

(** [copy(dst[offset:], src)] *)
Definition copy_at (dst : bytes) (offset : nat) (src : bytes) : bytes :=
  take offset dst
  ++ take (length dst - offset) src
  ++ drop (offset + length src) dst.

(** The second loop of [flattenByteSlices]. *)
Fixpoint copyAll (slices : list bytes) (flattened : bytes) (offset : nat)
    : bytes :=
  match slices with
  | [] => flattened
  | slice :: rest =>
      copyAll rest (copy_at flattened offset slice) (offset + length slice)%nat
  end.

(** [flattenByteSlices] *)
Definition flattenByteSlices (slices : list bytes) : outcome bytes :=
  let* total := totalLength slices 0%nat in
  Ret (copyAll slices (repeat x00 total) 0%nat).

Section WithLib.
Context {lib : CryptoLib} {slib : SigningLib}.

(** What a [tss.ParsedMessage] carries. *)
Inductive MessageContent : Type :=
| SignRound1Content
| SignRound2Content (m : SignRound2Message)
| SignRound3Content (s : Z).

Record ParsedMessage : Type := mkMessage {
  GetFrom : PartyID;
  IsBroadcast : bool;
  Content : MessageContent;
}.

(** Modelled from the spec: [NewSignRound3Message], the broadcast that
    carries the sender and its signature share. *)
Definition NewSignRound3Message (from : PartyID) (si : Z) : ParsedMessage :=
  mkMessage from true (SignRound3Content si).

Record localTempData : Type := mkTemp {
  wi : Z;
  m : Z;
  ri : Z;
  fullBytesLen : Z;
  ssid : bytes;
  cjs : list HashCommitment;
  signRound2Messages : list (option ParsedMessage);
  signRound3Messages : list (option ParsedMessage);
  si : option (array 32);
  r : option Z;
}.

Record Parameters : Type := mkParams {
  EC : Curve;
  Parties : list PartyID;
  PartyId : PartyID;
  Rand : Reader;
}.

(** The round object: [round3] with the fields of the rounds it embeds. *)
Record round3 : Type := mkRound {
  Params : Parameters;
  EDDSAPub : ECPoint;
  temp : localTempData;
  out : list ParsedMessage;
  ok : list bool;
  started : bool;
  number : Z;
}.

Definition TaskName : string := "eddsa-signing".

(** Modelled from the spec: [round.WrapError(err, culprits...)], the error
    tagged with the round number, this party and the blamed parties. *)
Definition WrapError (round : round3) (err : error) (culprits : list PartyID)
    : tssError :=
  mkError err TaskName (number round) (PartyId (Params round)) culprits.

(** Modelled from the spec: [round.resetOK()], every slot of the acceptance
    table back to not accepted. *)
Definition resetOK (ok : list bool) : list bool := map (fun _ => false) ok.

Definition begin_round (round : round3) : round3 :=
  mkRound (Params round) (EDDSAPub round) (temp round) (out round)
    (resetOK (ok round)) true 3.

Definition set_rand (round : round3) (rand : Reader) : round3 :=
  let p := Params round in
  mkRound (mkParams (EC p) (Parties p) (PartyId p) rand) (EDDSAPub round)
    (temp round) (out round) (ok round) (started round) (number round).

Definition set_temp (round : round3) (t : localTempData) : round3 :=
  mkRound (Params round) (EDDSAPub round) t (out round) (ok round)
    (started round) (number round).

Definition set_si_r (t : localTempData) (s : array 32) (rv : Z)
    : localTempData :=
  mkTemp (wi t) (m t) (ri t) (fullBytesLen t) (ssid t) (cjs t)
    (signRound2Messages t) (signRound3Messages t) (Some s) (Some rv).

Definition set_signRound3Messages (t : localTempData)
    (msgs : list (option ParsedMessage)) : localTempData :=
  mkTemp (wi t) (m t) (ri t) (fullBytesLen t) (ssid t) (cjs t)
    (signRound2Messages t) msgs (si t) (r t).

Definition send (round : round3) (msg : ParsedMessage) : round3 :=
  mkRound (Params round) (EDDSAPub round) (temp round) (out round ++ [msg])
    (ok round) (started round) (number round).

Definition set_ok (round : round3) (ok' : list bool) : round3 :=
  mkRound (Params round) (EDDSAPub round) (temp round) (out round) ok'
    (started round) (number round).

Definition set_started (round : round3) (b : bool) : round3 :=
  mkRound (Params round) (EDDSAPub round) (temp round) (out round) (ok round)
    b (number round).

(** The type assertion of [msg.Content()] to a round 2 payload on a possibly nil message: a nil
    message and a content of another type both panic. *)
Definition asSignRound2Message (msg : option ParsedMessage)
    : outcome SignRound2Message :=
  let* msg' := deref msg in
  match Content msg' with
  | SignRound2Content r2msg => Ret r2msg
  | _ => Panic "interface conversion: not *signing.SignRound2Message"
  end.

(** Steps 2 to 4 of [Start] for the peer [Pj] at position [j]: open the
    commitment, rebuild the nonce point, clear the cofactor and verify the
    proof. *)
Definition checkPeer (round : round3) (j : nat) (Pj : PartyID)
    : flow ECPoint :=
  let ContextJ := AppendBigIntToBytesSlice (ssid (temp round)) (Z.of_nat j) in
  let+ msg := lift (index (signRound2Messages (temp round)) j) in
  let+ r2msg := lift (asSignRound2Message msg) in
  let+ Cj := lift (index (cjs (temp round)) j) in
  let '(ok, coordinates) := DeCommit Cj (UnmarshalDeCommitment r2msg) in
  if negb ok then
    Abort (WrapError round "de-commitment verify failed" [])
  else
  match coordinates with
  | [c0; c1] =>
      let res := NewECPoint (EC (Params round)) c0 c1 in
      let Rj := match res with inl P => Some P | inr _ => None end in
      (* Rj = Rj.EightInvEight(), before the error is looked at *)
      let+ Rj := lift (let* P := deref Rj in Ret (EightInvEight P)) in
      match res with
      | inr err =>
          Abort (WrapError round (errors_Wrap err "NewECPoint(Rj)") [Pj])
      | inl _ =>
          match UnmarshalZKProof r2msg (EC (Params round)) with
          | (_, Some _) =>
              Abort (WrapError round "failed to unmarshal Rj proof" [Pj])
          | (proof, None) =>
              let+ ok := lift (Schnorr.ZKProof_Verify proof ContextJ (Some Rj)) in
              if negb ok then
                Abort (WrapError round "failed to prove Rj" [Pj])
              else Next Rj
          end
      end
  | _ => Abort (WrapError round "length of de-commitment should be 2" [])
  end.

(** The loop of [Start] over the parties from position [j] on: every peer
    but this party is checked and its nonce point added to [R]. The reader
    is the one of the round; each added point draws from it. *)
Fixpoint aggregate (round : round3) (j : nat) (ps : list PartyID)
    (R : ExtendedGroupElement) (rand : Reader)
    : Reader * flow ExtendedGroupElement :=
  match ps with
  | [] => (rand, Next R)
  | Pj :: rest =>
      if Z.of_nat j =? Index (PartyId (Params round)) then
        aggregate round (S j) rest R rand
      else
        match checkPeer round j Pj with
        | Next Rj =>
            let '(extendedRj, rand') :=
              ecPointToExtendedElement (EC (Params round)) (P_X Rj) (P_Y Rj)
                rand in
            aggregate round (S j) rest (addExtendedElements R extendedRj) rand'
        | Abort e => (rand, Abort e)
        | Crash msg => (rand, Crash msg)
        end
  end.

(** The message segment of the hash input. *)
Definition messageBytes (t : localTempData) : outcome bytes :=
  if fullBytesLen t =? 0 then Ret (bigInt_Bytes (m t))
  else
    let* n := make_bytes (fullBytesLen t) in
    bigInt_FillBytes (m t) n.

(** The segments handed to the sponge: encoded R, encoded public key and
    the message. *)
Definition poseidonInputs (round : round3) (encodedR : array 32)
    : outcome (list bytes) :=
  let encodedPubKey :=
    ecPointToEncodedBytes (P_X (EDDSAPub round)) (P_Y (EDDSAPub round)) in
  let* mBytes := messageBytes (temp round) in
  Ret ([slice_of encodedR; slice_of encodedPubKey] ++ [mBytes]).

(** Step 7 of [Start]: lambda, reduced to a scalar. *)
Definition computeLambda (round : round3) (encodedR : array 32)
    : flow (array 32) :=
  let+ inputs := lift (poseidonInputs round encodedR) in
  let+ flat := lift (flattenByteSlices inputs) in
  match poseidon_HashBytes flat with
  | inr err =>
      Abort (WrapError round (errors_Wrap err "Poseidon hashing failed") [])
  | inl poseidonHash =>
      let lambda := copy_array 64 (bigInt_Bytes poseidonHash) in
      Next (ScReduce lambda)
  end.

(** [signRound3Messages[i] = msg] for an [int] index. *)
Definition store_at {A} (l : list A) (i : Z) (a : A) : outcome (list A) :=
  if (0 <=? i) && (i <? Z.of_nat (length l))
  then Ret (<[Z.to_nat i := a]> l)
  else Panic index_out_of_range.

(** What a call leaves behind: the *tss.Error it returned (nil for none), or
    a panic. *)
Definition result : Type := outcome (option tssError).

(** Steps 1 to 7 of [Start]: the aggregated nonce point and lambda. The
    result holds the locals [encodedR] and [lambdaReduced]; the reader is
    the one the loop leaves behind. *)
Definition nonceAndLambda (round : round3)
    : Reader * flow (array 32 * array 32) :=
  (* 1. Initialize R *)
  let riBytes := bigIntToEncodedBytes (ri (temp round)) in
  let R := GeScalarMultBase riBytes in
  (* 2-6. Compute R *)
  let '(rand', looped) :=
    aggregate round 0 (Parties (Params round)) R (Rand (Params round)) in
  (rand',
   let+ R := looped in
   (* 7. Compute lambda using Poseidon *)
   let encodedR := ToBytes R in
   let+ lambdaReduced := computeLambda (set_rand round rand') encodedR in
   Next (encodedR, lambdaReduced)).

(** [(round *round3) Start()] *)
Definition round3_Start (round : round3) : round3 * result :=
  if started round then
    (round, Ret (Some (WrapError round "round already started" [])))
  else
    let round := begin_round round in
    let riBytes := bigIntToEncodedBytes (ri (temp round)) in
    let '(rand', locals) := nonceAndLambda round in
    let round := set_rand round rand' in
    match locals with
    | Crash msg => (round, Panic msg)
    | Abort e => (round, Ret (Some e))
    | Next (encodedR, lambdaReduced) =>
        (* 8. Compute si *)
        let localS :=
          ScMulAdd lambdaReduced (bigIntToEncodedBytes (wi (temp round)))
            riBytes in
        (* 9. Store r3 message pieces *)
        let round :=
          set_temp round
            (set_si_r (temp round) localS (encodedBytesToBigInt encodedR)) in
        (* 10. Broadcast si to other parties *)
        let r3msg :=
          NewSignRound3Message (PartyId (Params round))
            (encodedBytesToBigInt localS) in
        match store_at (signRound3Messages (temp round))
                (Index (PartyId (Params round))) (Some r3msg) with
        | Panic msg => (round, Panic msg)
        | Ret msgs =>
            let round :=
              set_temp round (set_signRound3Messages (temp round) msgs) in
            (send round r3msg, Ret None)
        end
    end.

(** [(round *round3) CanAccept(msg)] *)
Definition round3_CanAccept (msg : ParsedMessage) : bool :=
  match Content msg with
  | SignRound3Content _ => IsBroadcast msg
  | _ => false
  end.

(** The loop of [Update] from position [j] on, over the acceptance table
    [ok] and the flag [ret]. *)
Fixpoint updateLoop (j : nat) (msgs : list (option ParsedMessage))
    (ok : list bool) (ret : bool) : list bool * outcome bool :=
  match msgs with
  | [] => (ok, Ret ret)
  | msg :: rest =>
      match index ok j with
      | Panic e => (ok, Panic e)
      | Ret true => updateLoop (S j) rest ok ret
      | Ret false =>
          match msg with
          | None => updateLoop (S j) rest ok false
          | Some msg' =>
              if negb (round3_CanAccept msg')
              then updateLoop (S j) rest ok false
              else updateLoop (S j) rest (<[j := true]> ok) ret
          end
      end
  end.

(** [(round *round3) Update()] *)
Definition round3_Update (round : round3)
    : round3 * outcome (bool * option tssError) :=
  let '(ok', res) :=
    updateLoop 0 (signRound3Messages (temp round)) (ok round) true in
  (set_ok round ok', let* ret := res in Ret (ret, None)).

(** A message slot that [Update] accepts: a broadcast share message. *)
Definition acceptable (msg : option ParsedMessage) : bool :=
  match msg with
  | Some msg' => round3_CanAccept msg'
  | None => false
  end.

(** The slot at position [k] after the loop has run from position [j] over
    [msgs]. *)
Definition slot_after (j : nat) (msgs : list (option ParsedMessage))
    (ok : list bool) (k : nat) : option bool :=
  if ((j <=? k) && (k <? j + length msgs))%nat
  then (fun b => b || acceptable (default None (msgs !! (k - j)%nat))) <$> ok !! k
  else ok !! k.

Definition slot_true (ok : list bool) (k : nat) : bool :=
  default false (ok !! k).

(** The parties of a list with their positions, from position [j] on. *)
Fixpoint peers_from (j : nat) (ps : list PartyID) : list (nat * PartyID) :=
  match ps with
  | [] => []
  | P :: rest => (j, P) :: peers_from (S j) rest
  end.

(** The nonce point of the peer at a position, as an extended element drawn
    with the reader [rand0]; a fixed element for a peer that fails its
    checks. *)
Definition peer_point (round : round3) (rand0 : Reader)
    (kp : nat * PartyID) : ExtendedGroupElement :=
  match checkPeer round (fst kp) (snd kp) with
  | Next Rk =>
      fst (ecPointToExtendedElement (EC (Params round)) (P_X Rk) (P_Y Rk) rand0)
  | _ => GeScalarMultBase (bigIntToEncodedBytes 0)
  end.

(** The points of the listed peers added to an accumulator, in order. *)
Definition add_all (ref : nat * PartyID -> ExtendedGroupElement)
    (l : list (nat * PartyID)) (acc : ExtendedGroupElement)
    : ExtendedGroupElement :=
  fold_left (fun acc kp => addExtendedElements acc (ref kp)) l acc.

(** The locals [encodedR] and [lambdaReduced] of [Start], when it gets as
    far as computing them. *)
Definition Start_locals (round : round3) : option (array 32 * array 32) :=
  match snd (nonceAndLambda (begin_round round)) with
  | Next locals => Some locals
  | _ => None
  end.

(** Two parties of one signing session: the same curve, parties, session
    id, public key and message, and the same commitments and round 2
    messages of all parties. Their own index, nonce, key share and reader
    may differ. *)
Definition same_session (A B : round3) : Prop :=
  EC (Params A) = EC (Params B)
  /\ Parties (Params A) = Parties (Params B)
  /\ EDDSAPub A = EDDSAPub B
  /\ m (temp A) = m (temp B)
  /\ fullBytesLen (temp A) = fullBytesLen (temp B)
  /\ ssid (temp A) = ssid (temp B)
  /\ cjs (temp A) = cjs (temp B)
  /\ signRound2Messages (temp A) = signRound2Messages (temp B).

(** An honest party sits at its index in the list of parties, its round 2
    message passes the checks of the other parties, and the nonce point that
    message reveals is g^ri for the nonce [ri] the party holds. *)
Definition honest (round : round3) : Prop :=
  exists (i : nat) (Pi : PartyID) (Ri : ECPoint),
    Index (PartyId (Params round)) = Z.of_nat i
    /\ Parties (Params round) !! i = Some Pi
    /\ checkPeer round i Pi = Next Ri
    /\ forall rand : Reader,
         same_point
           (GeScalarMultBase (bigIntToEncodedBytes (ri (temp round))))
           (fst (ecPointToExtendedElement (EC (Params round))
                   (P_X Ri) (P_Y Ri) rand)).

(** [finalization{round}]: the next round shares the round object. *)
Record finalization : Type := mkFinalization {
  fin_round : round3;
}.

(** [(round *round3) NextRound()] *)
Definition round3_NextRound (round : round3) : round3 * finalization :=
  let round := set_started round false in
  (round, mkFinalization round).

End WithLib.
End Signing.

(** ** A small instance: the integers mod 11 under addition

    Used to run the definitions on concrete rounds. *)

Module Toy.

Definition N : Z := 11.

Definition on_curve (x y : Z) : bool := (0 <=? x) && (x <? N) && (y =? 0).

Definition draw (rand : list Z) (q : Z) : Z * list Z :=
  match rand with
  | [] => (0, [])
  | x :: rest => (x mod q, rest)
  end.

Definition hash (tag : bytes) (ints : list Z) : Z :=
  fold_left (fun acc i => 3 * acc + i + 1) ints (Z.of_nat (length tag)).

#[export] Instance lib : CryptoLib := {|
  Curve := unit;
  ECPoint := Z;
  Reader := list Z;
  P_Curve := fun _ => tt;
  P_X := fun p => p;
  P_Y := fun _ => 0;
  Params_N := fun _ => N;
  Params_Gx := fun _ => 1;
  Params_Gy := fun _ => 0;
  NewECPointNoCurveCheck := fun _ x _ => x;
  NewECPoint := fun _ x y =>
    if on_curve x y then inl x
    else inr "NewECPoint: the given point is not on the elliptic curve"%string;
  validate := fun p => on_curve p 0;
  validateBJJ := fun p => on_curve p 0;
  ScalarBaseMult := fun _ k => k mod N;
  ScalarBaseMultBJJ := fun _ k => k mod N;
  ScalarMult := fun p k => (p * k) mod N;
  Add := fun p q => inl ((p + q) mod N);
  EightInvEight := fun p => (((p * 8) mod N) * 7) mod N;
  GetRandomPositiveInt := draw;
  SHA512_256i_TAGGED := hash;
  RejectionSample := fun q h => h mod q;
|}.

Definition encode (z : Z) : array 32 := copy_array 32 [byte_of_Z z].

Definition decode {n} (a : array n) : Z :=
  match slice_of a with
  | b :: _ => Z.of_N (Byte.to_N b)
  | [] => 0
  end.

(** A round 2 payload: the decommitment and the proof (Alpha, T). *)
Definition payload : Type := list Z * (Z * Z).

Definition decommit (C : Z) (D : list Z) : bool * list Z :=
  match D with
  | salt :: coords => (C =? fold_left Z.add coords salt, coords)
  | [] => (false, [])
  end.

Definition unmarshalProof (p : payload) (ec : unit)
    : option Schnorr.ZKProof * option error :=
  let '(alpha, t) := snd p in
  if on_curve alpha 0
  then (Some (Schnorr.mkZKProof (Some alpha) (Some t)), None)
  else (None, Some "NewECPoint: the given point is not on the elliptic curve"%string).

(** An extended element: the point and the factor its representation was
    scaled by. *)
#[export] Instance slib : SigningLib := {|
  ExtendedGroupElement := Z * Z;
  HashCommitment := Z;
  HashDeCommitment := list Z;
  SignRound2Message := payload;
  GeScalarMultBase := fun a => (decode a mod N, 1);
  ToBytes := fun e => encode (fst e mod N);
  ScReduce := fun a => encode (decode a mod N);
  ScMulAdd := fun a b c => encode ((decode a * decode b + decode c) mod N);
  bigIntToEncodedBytes := encode;
  encodedBytesToBigInt := decode;
  ecPointToEncodedBytes := fun x _ => encode x;
  ecPointToExtendedElement := fun _ x _ rand =>
    let '(z, rand') := draw rand N in ((x, z + 1), rand');
  addExtendedElements := fun e1 e2 => (fst e1 + fst e2, snd e1 * snd e2);
  AppendBigIntToBytesSlice := fun b z => b ++ bigInt_Bytes z;
  DeCommit := decommit;
  UnmarshalDeCommitment := fst;
  UnmarshalZKProof := unmarshalProof;
  poseidon_HashBytes := fun b => inl (Z.of_nat (length b) + 7);
|}.

Import Signing.

Definition session : bytes := [x01; x02].

(** The round 2 message of the party at position [j] with nonce [rj], its
    proof blinded by [a]. *)
Definition r2msg (j : nat) (rj a : Z) : payload :=
  let X := rj mod N in
  let alpha := a mod N in
  let c := Schnorr.challenge (session ++ bigInt_Bytes (Z.of_nat j)) N X 1 alpha in
  ([5; X; 0], (alpha, (a + c * rj) mod N)).

Definition party (j : Z) : PartyID :=
  mkPartyID (String (Ascii.ascii_of_nat (Z.to_nat (80 + j))) EmptyString) j.

Definition ids : list PartyID := [party 0; party 1; party 2].

Definition message_of (j : nat) (p : payload) : ParsedMessage :=
  mkMessage (party (Z.of_nat j)) true (SignRound2Content p).

Definition message (j : nat) (p : payload) : option ParsedMessage :=
  Some (message_of j p).

Definition nonces : list Z := [3; 5; 7].

Definition r2msgs : list (option ParsedMessage) :=
  [message 0 (r2msg 0 3 4); message 1 (r2msg 1 5 9); message 2 (r2msg 2 7 2)].

Definition commitments : list Z := [5 + 3; 5 + 5; 5 + 7].

(** The round of party [i] with nonce [rv] and key share [w], signing [msg],
    before [Start]. *)
Definition round_of (i rv w msg len : Z) (rand : list Z)
    (r2 : list (option ParsedMessage)) : round3 :=
  mkRound (mkParams tt ids (party i) rand) 6
    (mkTemp w msg rv len session commitments r2 [None; None; None] None None)
    [] [false; false; false] false 2.

Definition round0 : round3 := round_of 0 3 2 1234 0 [1; 2; 3] r2msgs.
Definition round1 : round3 := round_of 1 5 4 1234 0 [9; 9] r2msgs.

(** Party 1 reveals coordinates that are not a point. *)
Definition bad_point_payload : payload := ([10 - 20; 20; 0], (0, 0)).

Definition bad_point : list (option ParsedMessage) :=
  [message 0 (r2msg 0 3 4); message 1 bad_point_payload;
   message 2 (r2msg 2 7 2)].

(** Party 1 reveals coordinates its commitment does not open to. *)
Definition bad_decommit_payload : payload := ([5; 6; 0], (0, 0)).

Definition bad_decommit : list (option ParsedMessage) :=
  [message 0 (r2msg 0 3 4); message 1 bad_decommit_payload;
   message 2 (r2msg 2 7 2)].

(** A started round that holds the share of party 0, nothing from party 1
    (accepted earlier) and a share of party 2 that was not broadcast. *)
Definition waiting : round3 :=
  mkRound (mkParams tt ids (party 0) [])
    6
    (mkTemp 2 1234 3 0 session commitments r2msgs
       [Some (NewSignRound3Message (party 0) 5); None;
        Some (mkMessage (party 2) false (SignRound3Content 1))]
       None None)
    [] [false; true; false] true 3.

End Toy.

(** ** A second small instance: a curve without an affine identity

    The integers mod 11 again, but a sum that is zero is not a point: the
    addition fails on it and zero does not pass validation. *)

Module ToyPartial.

Definition add (p q : Z) : Z + error :=
  if (p + q) mod Toy.N =? 0
  then inr "NewECPoint: the given point is not on the elliptic curve"%string
  else inl ((p + q) mod Toy.N).

Definition valid (p : Z) : bool := (0 <? p) && (p <? Toy.N).

#[export] Instance lib : CryptoLib := {|
  Curve := unit;
  ECPoint := Z;
  Reader := list Z;
  P_Curve := fun _ => tt;
  P_X := fun p => p;
  P_Y := fun _ => 0;
  Params_N := fun _ => Toy.N;
  Params_Gx := fun _ => 1;
  Params_Gy := fun _ => 0;
  NewECPointNoCurveCheck := fun _ x _ => x;
  NewECPoint := fun _ x y =>
    if valid x && (y =? 0) then inl x
    else inr "NewECPoint: the given point is not on the elliptic curve"%string;
  validate := valid;
  validateBJJ := valid;
  ScalarBaseMult := fun _ k => k mod Toy.N;
  ScalarBaseMultBJJ := fun _ k => k mod Toy.N;
  ScalarMult := fun p k => (p * k) mod Toy.N;
  Add := add;
  EightInvEight := fun p => (((p * 8) mod Toy.N) * 7) mod Toy.N;
  GetRandomPositiveInt := Toy.draw;
  SHA512_256i_TAGGED := Toy.hash;
  RejectionSample := fun q h => h mod q;
|}.

End ToyPartial.

(** ** Variations of a round, to compare runs of [Start] *)

Module Variations.
Import Signing.

Section WithLib.
Context {lib : CryptoLib} {slib : SigningLib}.

(** The round with other round 2 messages and commitments in its store. *)
Definition with_round2 (round : round3)
    (msgs : list (option ParsedMessage)) (commitments : list HashCommitment)
    : round3 :=
  let t := temp round in
  set_temp round
    (mkTemp (wi t) (m t) (ri t) (fullBytesLen t) (ssid t) commitments msgs
       (signRound3Messages t) (si t) (r t)).

(** The errors [Start] builds for the peer [Pj], in the order of the
    source, without the one for a failed reconstruction of the point. *)
Definition peer_errors (round : round3) (Pj : PartyID) : list tssError :=
  [WrapError round "de-commitment verify failed" [];
   WrapError round "length of de-commitment should be 2" [];
   WrapError round "failed to unmarshal Rj proof" [Pj];
   WrapError round "failed to prove Rj" [Pj]].

End WithLib.
End Variations.

(** More concrete rounds. *)
Module ToyRounds.
Import Signing.

(** The waiting round of party 0 with an acceptance table of one slot. *)
Definition short_table : round3 :=
  set_ok Toy.waiting [false].

(** The round of party 0 in which the message of party 1 never arrived. *)
Definition missing_message : round3 :=
  Toy.round_of 0 3 2 1234 0 [1]
    [Toy.message 0 (Toy.r2msg 0 3 4); None; Toy.message 2 (Toy.r2msg 2 7 2)].

(** The round of party 0 signing 1234 in a single declared byte. *)
Definition narrow_message : round3 :=
  Toy.round_of 0 3 2 1234 1 [1] Toy.r2msgs.

(** The round of party 0 in which party 2 sent a proof that does not
    verify. *)
Definition bad_proof : round3 :=
  Toy.round_of 0 3 2 1234 0 [1]
    [Toy.message 0 (Toy.r2msg 0 3 4); Toy.message 1 (Toy.r2msg 1 5 9);
     Toy.message 2 ([5; 7; 0], (2, 1))].

End ToyRounds.

(** ** Properties of the schnorr package *)

Module SchnorrProofs.
Import Schnorr.

Section WithLib.
Context {lib : CryptoLib}.

Lemma same_coords_refl (P : ECPoint) : same_coords P P = true.
Proof. unfold same_coords. now rewrite !Z.eqb_refl. Qed.

Lemma same_coords_spec (P Q : ECPoint) :
  same_coords P Q = true <-> P_X P = P_X Q /\ P_Y P = P_Y Q.
Proof.
  unfold same_coords. rewrite andb_true_iff, !Z.eqb_eq. tauto.
Qed.

(** The constructor [NewZKProof] rejects exactly the null or invalid
    arguments, and returns a proof for all others. *)
Lemma NewZKProof_rejects Session (x : option Z) (X : option ECPoint) rand :
  (x = None \/ X = None \/ ValidateBasic X = false) ->
  NewZKProof Session x X rand = Ret ((None, Some errZKProof), rand).
Proof.
  intros H. unfold NewZKProof.
  destruct x as [xv|], X as [Xp|]; simpl in *; try reflexivity.
  destruct (validate Xp); simpl; [|reflexivity].
  destruct H as [H|[H|H]]; discriminate.
Qed.

Lemma NewZKProof_accepts Session (xv : Z) (Xp : ECPoint) rand :
  validate Xp = true ->
  exists pf rand',
    NewZKProof Session (Some xv) (Some Xp) rand = Ret ((Some pf, None), rand').
Proof.
  intros H. unfold NewZKProof. simpl. rewrite H. simpl.
  destruct (GetRandomPositiveInt rand (Params_N (P_Curve Xp))) as [a rand'].
  eauto.
Qed.

(** C1. Completeness of the discrete-log proof: when the group primitive is
    correct, for every scalar x, every valid point X = g^x, every session tag
    and every randomness source, the constructor returns a proof and no
    error, and the verifier accepts that proof for the same session and X. *)
Theorem NewZKProof_complete (laws : GroupLaws lib)
    (Session : bytes) (x : Z) (X : ECPoint) (rand : Reader) :
  validate X = true ->
  X = ScalarBaseMult (P_Curve X) x ->
  exists pf rand',
    NewZKProof Session (Some x) (Some X) rand = Ret ((Some pf, None), rand')
    /\ ZKProof_Verify (Some pf) Session (Some X) = Ret true.
Proof.
  intros Hvalid HX.
  unfold NewZKProof. simpl. rewrite Hvalid. simpl.
  destruct (GetRandomPositiveInt rand (Params_N (P_Curve X))) as [a rand'].
  eexists _, rand'. split; [reflexivity|].
  unfold ZKProof_Verify, ZKProof_ValidateBasic. simpl.
  set (ec := P_Curve X).
  set (c := challenge Session (Params_N ec) X _ _).
  unfold ModInt_Add. rewrite base_order.
  rewrite HX at 1. fold ec. rewrite base_mult, base_add.
  replace (a + c * x) with (a + x * c) by lia.
  now rewrite same_coords_refl.
Qed.

(** C2. The verifier of the discrete-log proof returns false for a nil proof
    and for a proof with a nil field; for a proof with both fields it returns
    a boolean, which is true exactly when Alpha + [c]X exists and has the
    two affine coordinates of g^T, c being the rejection-sampled tagged hash
    of the session, X, g and Alpha. *)
Theorem ZKProof_Verify_spec (Session : bytes) (X : ECPoint) :
  ZKProof_Verify None Session (Some X) = Ret false
  /\ (forall t, ZKProof_Verify (Some (mkZKProof None t)) Session (Some X)
                = Ret false)
  /\ (forall A, ZKProof_Verify (Some (mkZKProof A None)) Session (Some X)
                = Ret false)
  /\ (forall (A : ECPoint) (t : Z),
        let ec := P_Curve X in
        let g := NewECPointNoCurveCheck ec (Params_Gx ec) (Params_Gy ec) in
        let c :=
          RejectionSample (Params_N ec)
            (SHA512_256i_TAGGED Session
               [P_X X; P_Y X; P_X g; P_Y g; P_X A; P_Y A]) in
        let pf := Some (mkZKProof (Some A) (Some t)) in
        (exists b, ZKProof_Verify pf Session (Some X) = Ret b)
        /\ (ZKProof_Verify pf Session (Some X) = Ret true
            <-> exists S,
                  Add A (ScalarMult X c) = inl S
                  /\ P_X S = P_X (ScalarBaseMult ec t)
                  /\ P_Y S = P_Y (ScalarBaseMult ec t))).
Proof.
  split; [reflexivity|].
  split; [intros [t|]; reflexivity|].
  split; [intros [A|]; reflexivity|].
  intros A t ec g c pf. unfold pf, ZKProof_Verify. simpl.
  fold ec. fold g. unfold challenge. fold c.
  destruct (Add A (ScalarMult X c)) as [S|err].
  - split; [eauto|]. split.
    + intros H. injection H as H. apply same_coords_spec in H. eauto.
    + intros (S' & HS & Hx & Hy). injection HS as <-.
      f_equal. apply same_coords_spec. auto.
  - split; [eauto|]. split; [discriminate|].
    intros (S' & HS & _). discriminate.
Qed.

(** The dual-exponent proof fails basic validation exactly when a field is
    nil or Alpha is not a valid point. *)
Lemma ZKVProof_ValidateBasic_false (p : ZKVProof) :
  ZKVProof_ValidateBasic p = false
  <-> VAlpha p = None \/ VT p = None \/ VU p = None
      \/ ValidateBasic (VAlpha p) = false.
Proof.
  unfold ZKVProof_ValidateBasic.
  destruct (VAlpha p) as [A|], (VT p), (VU p); simpl;
    try (destruct (validate A)); simpl; intuition congruence.
Qed.

(** C3. The verifier of the dual-exponent proof returns false for a nil
    proof and for a proof that fails basic validation (a nil Alpha, T or U,
    or an Alpha that is not a valid point); for any other proof it returns
    true exactly when [T]R + [U]g and Alpha + [c]V both exist and agree on
    both coordinates, c being the rejection-sampled tagged hash of the
    session, V, R, g and Alpha; and it returns a boolean whenever the sum
    [T]R + [U]g exists. *)
Theorem ZKVProof_Verify_spec (Session : bytes) (V R : ECPoint)
    (p : ZKVProof) :
  ZKVProof_Verify None Session (Some V) (Some R) = Ret false
  /\ (VAlpha p = None \/ VT p = None \/ VU p = None
      \/ ValidateBasic (VAlpha p) = false ->
      ZKVProof_Verify (Some p) Session (Some V) (Some R) = Ret false)
  /\ (forall (A : ECPoint) (t u : Z),
        p = mkZKVProof (Some A) (Some t) (Some u) ->
        validate A = true ->
        let ec := P_Curve V in
        let g := NewECPointNoCurveCheck ec (Params_Gx ec) (Params_Gy ec) in
        let c :=
          RejectionSample (Params_N ec)
            (SHA512_256i_TAGGED Session
               [P_X V; P_Y V; P_X R; P_Y R; P_X g; P_Y g; P_X A; P_Y A]) in
        (ZKVProof_Verify (Some p) Session (Some V) (Some R) = Ret true
         <-> exists S1 S2,
               Add (ScalarMult R t) (ScalarBaseMult ec u) = inl S1
               /\ Add A (ScalarMult V c) = inl S2
               /\ P_X S1 = P_X S2 /\ P_Y S1 = P_Y S2)
        /\ (forall S1,
              Add (ScalarMult R t) (ScalarBaseMult ec u) = inl S1 ->
              exists b,
                ZKVProof_Verify (Some p) Session (Some V) (Some R) = Ret b)).
Proof.
  split; [reflexivity|].
  split.
  { intros H. apply ZKVProof_ValidateBasic_false in H.
    unfold ZKVProof_Verify. now rewrite H. }
  intros A t u -> Hvalid ec g c.
  unfold ZKVProof_Verify, ZKVProof_ValidateBasic. simpl. rewrite Hvalid. simpl.
  fold ec. fold g. unfold challengeV. fold c.
  destruct (Add (ScalarMult R t) (ScalarBaseMult ec u)) as [S1|e1],
           (Add A (ScalarMult V c)) as [S2|e2]; simpl.
  - split.
    + split.
      * intros H. injection H as H. apply same_coords_spec in H.
        exists S1, S2. tauto.
      * intros (S1' & S2' & H1 & H2 & Hx & Hy).
        injection H1 as <-. injection H2 as <-.
        f_equal. apply same_coords_spec. auto.
    + eauto.
  - split; [|eauto]. split; [discriminate|].
    intros (S1' & S2' & _ & H2 & _). discriminate.
  - split; [|intros ? [=]]. split; [discriminate|].
    intros (S1' & S2' & H1 & _). discriminate.
  - split; [|intros ? [=]]. split; [discriminate|].
    intros (S1' & S2' & H1 & _). discriminate.
Qed.

(** The error of the first addition is discarded in the verifier of the
    dual-exponent proof: when that addition fails and the second succeeds,
    the coordinates of a nil point are read. *)
Lemma ZKVProof_Verify_discarded_error (Session : bytes) (V R A : ECPoint)
    (t u : Z) (e : error) (S2 : ECPoint) :
  validate A = true ->
  Add (ScalarMult R t) (ScalarBaseMult (P_Curve V) u) = inr e ->
  Add A (ScalarMult V
           (challengeV Session (Params_N (P_Curve V)) V R
              (NewECPointNoCurveCheck (P_Curve V) (Params_Gx (P_Curve V))
                 (Params_Gy (P_Curve V))) A)) = inl S2 ->
  ZKVProof_Verify (Some (mkZKVProof (Some A) (Some t) (Some u))) Session
    (Some V) (Some R) = Panic nil_deref.
Proof.
  intros Hvalid H1 H2.
  unfold ZKVProof_Verify, ZKVProof_ValidateBasic. simpl. rewrite Hvalid. simpl.
  now rewrite H1, H2.
Qed.

(** C7, at the input that breaks it: [NewZKProofBJJ] does not check [x];
    with a nil [x] and a valid point it passes validation and panics in the
    multiplication c * x instead of returning its error. *)
Theorem NewZKProofBJJ_nil_x_panics (Session : bytes) (X : ECPoint)
    (rand : Reader) :
  validateBJJ X = true ->
  NewZKProofBJJ Session None (Some X) rand = Panic nil_deref.
Proof.
  intros H. unfold NewZKProofBJJ. simpl. rewrite H. simpl.
  now destruct (GetRandomPositiveInt rand (Params_N (P_Curve X))).
Qed.

End WithLib.

Lemma toy_group_laws : GroupLaws Toy.lib.
Proof.
  split; simpl; intros.
  - f_equal. unfold Toy.N. now rewrite <- Z.add_mod by lia.
  - unfold Toy.N. now rewrite Z.mul_mod_idemp_l by lia.
  - unfold Toy.N. now rewrite Z.mod_mod by lia.
Qed.

Lemma NewZKProof_complete_witness :
  exists pf rand',
    NewZKProof (lib := Toy.lib) Toy.session (Some 3) (Some 3) [4]
    = Ret ((Some pf, None), rand')
    /\ ZKProof_Verify (Some pf) Toy.session (Some 3) = Ret true.
Proof.
  apply (NewZKProof_complete toy_group_laws Toy.session 3 3 [4]);
    reflexivity.
Defined.

Lemma ZKVProof_Verify_spec_witness :
  ValidateBasic (lib := Toy.lib) (Some 20) = false
  /\ ZKVProof_Verify (lib := Toy.lib)
       (Some (mkZKVProof (lib := Toy.lib) (Some 20) (Some 1) (Some 1)))
       Toy.session (Some 3) (Some 5) = Ret false.
Proof.
  split; [reflexivity|].
  apply (ZKVProof_Verify_spec (lib := Toy.lib) Toy.session 3 5
           (mkZKVProof (lib := Toy.lib) (Some 20) (Some 1) (Some 1))).
  right. right. right. reflexivity.
Defined.

Lemma NewZKProofBJJ_nil_x_panics_witness :
  NewZKProofBJJ (lib := Toy.lib) Toy.session None (Some 3) [4]
  = Panic nil_deref.
Proof.
  apply (NewZKProofBJJ_nil_x_panics (lib := Toy.lib) Toy.session 3 [4]).
  reflexivity.
Defined.

End SchnorrProofs.

(** ** Properties of round 3 *)

Module SigningProofs.
Import Signing.

Section WithLib.
Context {lib : CryptoLib} {slib : SigningLib}.

(** *** The acceptance table *)

Lemma slot_after_cons (j : nat) (msg : option ParsedMessage)
    (rest : list (option ParsedMessage)) (ok ok1 : list bool) (b : bool)
    (k : nat) :
  ok !! j = Some b ->
  (forall i, i <> j -> ok1 !! i = ok !! i) ->
  ok1 !! j = Some (b || acceptable msg) ->
  slot_after (S j) rest ok1 k = slot_after j (msg :: rest) ok k.
Proof.
  intros Hj Hother Hat. unfold slot_after. cbn [length].
  destruct (Nat.eq_dec k j) as [->|Hne].
  - destruct (Nat.leb_spec (S j) j); [lia|].
    destruct (Nat.leb_spec j j); [|lia].
    destruct (Nat.ltb_spec j (j + S (length rest))); [|lia].
    cbn [andb]. rewrite Nat.sub_diag, Hj, Hat. reflexivity.
  - rewrite (Hother k Hne).
    destruct (Nat.leb_spec (S j) k), (Nat.leb_spec j k),
             (Nat.ltb_spec k (S j + length rest)),
             (Nat.ltb_spec k (j + S (length rest)));
      cbn [andb]; try lia; try reflexivity.
    replace (k - j)%nat with (S (k - S j)) by lia. reflexivity.
Qed.

Lemma slot_after_head (j : nat) (msgs : list (option ParsedMessage))
    (ok ok' : list bool) (b : bool) :
  msgs <> [] ->
  ok !! j = Some b ->
  (forall k, ok' !! k = slot_after j msgs ok k) ->
  slot_true ok' j = b || acceptable (default None (msgs !! 0%nat)).
Proof.
  intros Hne Hj Hk. unfold slot_true. rewrite Hk. unfold slot_after.
  destruct (Nat.leb_spec j j); [|lia].
  destruct (Nat.ltb_spec j (j + length msgs)).
  - cbn [andb]. rewrite Nat.sub_diag, Hj. reflexivity.
  - destruct msgs; [congruence|]. cbn [length] in *. lia.
Qed.

Lemma updateLoop_spec (msgs : list (option ParsedMessage)) :
  forall (j : nat) (ok : list bool) (ret : bool),
    (j + length msgs <= length ok)%nat ->
    exists ok',
      updateLoop j msgs ok ret
      = (ok', Ret (ret && forallb (slot_true ok') (seq j (length msgs))))
      /\ length ok' = length ok
      /\ forall k, ok' !! k = slot_after j msgs ok k.
Proof.
  induction msgs as [|msg rest IH]; intros j ok ret Hlen.
  - exists ok. cbn. rewrite andb_true_r. repeat split.
    intros k. unfold slot_after. cbn [length].
    destruct (Nat.leb_spec j k), (Nat.ltb_spec k (j + 0)); cbn [andb];
      try reflexivity; lia.
  - cbn [length] in Hlen. cbn [updateLoop length seq forallb]. unfold index.
    destruct (ok !! j) as [b|] eqn:Hj;
      [|apply lookup_ge_None in Hj; lia].
    assert (Hno : acceptable msg = false -> b = false ->
                exists ok',
                  updateLoop (S j) rest ok false
                  = (ok', Ret (ret && (slot_true ok' j
                                && forallb (slot_true ok') (seq (S j) (length rest)))))
                  /\ length ok' = length ok
                  /\ forall k, ok' !! k = slot_after j (msg :: rest) ok k).
    { intros Hacc ->.
      destruct (IH (S j) ok false ltac:(lia)) as (ok' & Hrun & Hl & Hk).
      exists ok'. rewrite Hrun.
      assert (Hk' : forall k, ok' !! k = slot_after j (msg :: rest) ok k).
      { intros k. rewrite Hk.
        apply slot_after_cons with (b := false); [exact Hj|reflexivity|].
        now rewrite Hj, Hacc. }
      rewrite (slot_after_head j (msg :: rest) ok ok' false); try easy.
      cbn. rewrite Hacc. cbn. rewrite andb_false_r. auto. }
    destruct b.
    + destruct (IH (S j) ok ret ltac:(lia)) as (ok' & Hrun & Hl & Hk).
      exists ok'. rewrite Hrun.
      assert (Hk' : forall k, ok' !! k = slot_after j (msg :: rest) ok k).
      { intros k. rewrite Hk.
        apply slot_after_cons with (b := true); [exact Hj|reflexivity|].
        now rewrite Hj. }
      rewrite (slot_after_head j (msg :: rest) ok ok' true); try easy.
    + destruct msg as [msg'|]; [|now apply Hno].
      destruct (round3_CanAccept msg') eqn:Hcan; cbn [negb];
        [|now apply Hno].
      destruct (IH (S j) (<[j := true]> ok) ret
                  ltac:(rewrite length_insert; lia)) as (ok' & Hrun & Hl & Hk).
      exists ok'. rewrite Hrun. rewrite length_insert in Hl.
      assert (Hk' : forall k, ok' !! k = slot_after j (Some msg' :: rest) ok k).
      { intros k. rewrite Hk.
        apply slot_after_cons with (b := false); [exact Hj| |].
        - intros i Hi. now apply list_lookup_insert_ne.
        - cbn. rewrite Hcan. apply list_lookup_insert_eq.
          apply lookup_lt_Some in Hj. exact Hj. }
      rewrite (slot_after_head j (Some msg' :: rest) ok ok' false); try easy.
      cbn. rewrite Hcan. auto.
Qed.

Lemma slot_after_idem (msgs : list (option ParsedMessage)) (ok ok' : list bool) :
  (forall k, ok' !! k = slot_after 0 msgs ok k) ->
  forall k, slot_after 0 msgs ok' k = ok' !! k.
Proof.
  intros H k. unfold slot_after at 1. rewrite (H k). unfold slot_after.
  destruct ((0 <=? k) && (k <? 0 + length msgs))%nat; [|reflexivity].
  destruct (ok !! k) as [b|]; simpl; [|reflexivity].
  now rewrite <- orb_assoc, orb_diag.
Qed.

Lemma forallb_slots_all (ok : list bool) :
  forallb (slot_true ok) (seq 0 (length ok)) = true
  <-> forall k b, ok !! k = Some b -> b = true.
Proof.
  rewrite forallb_forall. split.
  - intros H k b Hk. specialize (H k).
    unfold slot_true in H. rewrite Hk in H. simpl in H. apply H.
    apply in_seq. apply lookup_lt_Some in Hk. lia.
  - intros H k Hin. apply in_seq in Hin. unfold slot_true.
    destruct (ok !! k) as [b|] eqn:Hk; simpl.
    + eauto.
    + apply lookup_ge_None in Hk. lia.
Qed.

(** C9. [Update] is idempotent and monotone on a round whose acceptance
    table has one slot per message slot: it returns a boolean and no error;
    running it again on the round it left gives the same round and the same
    result; a slot that was accepted stays accepted; and the result is true
    exactly when every slot is accepted afterwards. *)
Theorem Update_idempotent_monotone (round : round3) :
  length (signRound3Messages (temp round)) = length (ok round) ->
  exists ret,
    snd (round3_Update round) = Ret (ret, None)
    /\ round3_Update (fst (round3_Update round))
       = (fst (round3_Update round), Ret (ret, None))
    /\ (forall k, ok round !! k = Some true ->
                  ok (fst (round3_Update round)) !! k = Some true)
    /\ (ret = true
        <-> forall k b, ok (fst (round3_Update round)) !! k = Some b ->
                        b = true).
Proof.
  intros Hlen. unfold round3_Update.
  destruct (updateLoop_spec (signRound3Messages (temp round)) 0 (ok round) true
              ltac:(simpl; lia)) as (ok1 & Hrun1 & Hl1 & Hk1).
  rewrite Hrun1. simpl.
  destruct (updateLoop_spec (signRound3Messages (temp round)) 0 ok1 true
              ltac:(simpl; lia)) as (ok2 & Hrun2 & Hl2 & Hk2).
  rewrite Hrun2.
  assert (Heq : ok2 = ok1).
  { apply list_eq. intros k. rewrite Hk2. now apply slot_after_idem with (ok := ok round). }
  subst ok2.
  eexists. split; [reflexivity|]. split; [reflexivity|]. split.
  - intros k Hk. rewrite Hk1. unfold slot_after. rewrite Hk.
    now destruct ((0 <=? k) && _)%nat.
  - rewrite Hlen, <- Hl1. apply forallb_slots_all.
Qed.

(** *** The started flag *)

Lemma Start_started (round : round3) :
  started (fst (round3_Start round)) = true.
Proof.
  unfold round3_Start. destruct (started round) eqn:E; [exact E|].
  unfold nonceAndLambda.
  destruct (aggregate _ _ _ _ _) as [rand' [R|e|msg]]; try reflexivity.
  cbn [flow_bind].
  destruct (computeLambda _ _) as [l|e|msg]; try reflexivity.
  cbn [flow_bind]. destruct (store_at _ _ _); reflexivity.
Qed.

Lemma Start_number (round : round3) :
  number (fst (round3_Start round))
  = if started round then number round else 3.
Proof.
  unfold round3_Start. destruct (started round) eqn:E; [reflexivity|].
  unfold nonceAndLambda.
  destruct (aggregate _ _ _ _ _) as [rand' [R|e|msg]]; try reflexivity.
  cbn [flow_bind].
  destruct (computeLambda _ _) as [l|e|msg]; try reflexivity.
  cbn [flow_bind]. destruct (store_at _ _ _); reflexivity.
Qed.

Lemma Start_again (round : round3) :
  started round = true ->
  round3_Start round
  = (round, Ret (Some (WrapError round "round already started" []))).
Proof. intros H. unfold round3_Start. now rewrite H. Qed.

(** C10. Whatever [Start] does afterwards (return nil, return an error or
    panic), it leaves the round flagged started, with round number 3 when it
    was not started before; every further [Start] on that round returns the
    already-started error and changes nothing; [Update] keeps the flag and
    [NextRound] resets it. *)
Theorem Start_marks_started (round : round3) :
  let round' := fst (round3_Start round) in
  started round' = true
  /\ number round' = (if started round then number round else 3)
  /\ round3_Start round'
     = (round', Ret (Some (WrapError round' "round already started" [])))
  /\ started (fst (round3_Update round')) = true
  /\ started (fst (round3_NextRound round')) = false.
Proof.
  intros round'. subst round'.
  pose proof (Start_started round) as Hs.
  split; [exact Hs|]. split; [apply Start_number|].
  split; [now apply Start_again|]. split; [|reflexivity].
  unfold round3_Update.
  destruct (updateLoop _ _ _ _) as [ok' res]. exact Hs.
Qed.

(** *** The loop over the peers *)

Lemma aggregate_app (round : round3) (pre post : list PartyID) :
  forall (j : nat) (R : ExtendedGroupElement) (rand : Reader),
    aggregate round j (pre ++ post) R rand
    = match aggregate round j pre R rand with
      | (rand1, Next R1) => aggregate round (j + length pre) post R1 rand1
      | other => other
      end.
Proof.
  induction pre as [|P pre IH]; intros j R rand; cbn [app aggregate length].
  - now rewrite Nat.add_0_r.
  - replace (j + S (length pre))%nat with (S j + length pre)%nat by lia.
    destruct (Z.of_nat j =? Index (PartyId (Params round))); [apply IH|].
    destruct (checkPeer round j P) as [Rj|e|msg]; try reflexivity.
    destruct (ecPointToExtendedElement _ _ _ _) as [ext rand'].
    apply IH.
Qed.

(** Which errors of the checks of peer [Pj] blame it: the three later
    ones do, the two about the decommitment blame nobody. *)
Lemma checkPeer_attribution (round : round3) (j : nat) (Pj : PartyID)
    (e : tssError) :
  checkPeer round j Pj = Abort e ->
  (culprits e = [Pj]
   /\ cause e <> "de-commitment verify failed"%string
   /\ cause e <> "length of de-commitment should be 2"%string)
  \/ (culprits e = []
      /\ (cause e = "de-commitment verify failed"%string
          \/ cause e = "length of de-commitment should be 2"%string)).
Proof.
  unfold checkPeer.
  destruct (index (signRound2Messages (temp round)) j) as [msg|];
    cbn [lift flow_bind]; [|discriminate].
  destruct (asSignRound2Message msg) as [r2msg|];
    cbn [lift flow_bind]; [|discriminate].
  destruct (index (cjs (temp round)) j) as [Cj|];
    cbn [lift flow_bind]; [|discriminate].
  destruct (DeCommit Cj (UnmarshalDeCommitment r2msg)) as [opened coords].
  destruct opened; cbn [negb]; [|intros [= <-]; right; cbn; tauto].
  destruct coords as [|c0 [|c1 [|c2 rest]]];
    try (intros [= <-]; right; cbn; tauto).
  destruct (NewECPoint (EC (Params round)) c0 c1) as [P|err];
    cbn [deref Go.bind lift flow_bind]; [|discriminate].
  destruct (UnmarshalZKProof r2msg (EC (Params round))) as [proof [err|]].
  - intros [= <-]. left. cbn. repeat split; discriminate.
  - destruct (Schnorr.ZKProof_Verify _ _ _) as [[|]|];
      cbn [lift flow_bind negb]; try discriminate.
    intros [= <-]. left. cbn. repeat split; discriminate.
Qed.

(** A run of [Start] that reaches the peer [Pj] at position [length pre]:
    the round was not started, [Pj] is not this party, and every peer
    before it passed its checks. *)
Section AtPeer.
Variables (round : round3) (pre post : list PartyID) (Pj : PartyID).
Variables (rand1 : Reader) (R1 : ExtendedGroupElement).
Hypothesis not_started : started round = false.
Hypothesis parties_split : Parties (Params round) = pre ++ Pj :: post.
Hypothesis not_self :
  Z.of_nat (length pre) <> Index (PartyId (Params round)).
Hypothesis earlier_pass :
  aggregate (begin_round round) 0 pre
    (GeScalarMultBase (bigIntToEncodedBytes (ri (temp round))))
    (Rand (Params round))
  = (rand1, Next R1).

Lemma Start_peer_abort (e : tssError) :
  checkPeer (begin_round round) (length pre) Pj = Abort e ->
  round3_Start round = (set_rand (begin_round round) rand1, Ret (Some e)).
Proof.
  intros Hpeer. unfold round3_Start, nonceAndLambda. rewrite not_started.
  cbn [begin_round Params temp]. rewrite parties_split, aggregate_app.
  fold (begin_round round). rewrite earlier_pass.
  cbn [aggregate Nat.add].
  destruct (Z.eqb_spec (Z.of_nat (length pre))
              (Index (PartyId (Params (begin_round round)))));
    [contradiction|].
  now rewrite Hpeer.
Qed.

Lemma Start_peer_crash (msg : string) :
  checkPeer (begin_round round) (length pre) Pj = Crash msg ->
  round3_Start round = (set_rand (begin_round round) rand1, Panic msg).
Proof.
  intros Hpeer. unfold round3_Start, nonceAndLambda. rewrite not_started.
  cbn [begin_round Params temp]. rewrite parties_split, aggregate_app.
  fold (begin_round round). rewrite earlier_pass.
  cbn [aggregate Nat.add].
  destruct (Z.eqb_spec (Z.of_nat (length pre))
              (Index (PartyId (Params (begin_round round)))));
    [contradiction|].
  now rewrite Hpeer.
Qed.

Variables (msg : ParsedMessage) (r2msg : SignRound2Message).
Variables (Cj : HashCommitment).
Hypothesis message_present :
  signRound2Messages (temp round) !! length pre = Some (Some msg).
Hypothesis message_round2 : Content msg = SignRound2Content r2msg.
Hypothesis commitment_present : cjs (temp round) !! length pre = Some Cj.

(** C4, at the inputs that break it: when the commitment of peer [Pj] does
    not open, or opens to a payload that is not two coordinates, [Start]
    returns an error that blames nobody: [Pj] is not among its culprits. *)
Theorem Start_decommit_failure_unattributed (opened : bool)
    (coordinates : list Z) :
  DeCommit Cj (UnmarshalDeCommitment r2msg) = (opened, coordinates) ->
  opened = false \/ length coordinates <> 2%nat ->
  exists e,
    round3_Start round = (set_rand (begin_round round) rand1, Ret (Some e))
    /\ culprits e = []
    /\ ~ In Pj (culprits e).
Proof.
  intros Hde Hbad.
  assert (Hpeer : exists e,
             checkPeer (begin_round round) (length pre) Pj = Abort e
             /\ culprits e = []).
  { unfold checkPeer, index. cbn [begin_round temp].
    rewrite message_present. cbn [lift flow_bind].
    unfold asSignRound2Message. cbn [deref Go.bind]. rewrite message_round2.
    cbn [lift flow_bind]. rewrite commitment_present. cbn [lift flow_bind].
    rewrite Hde. destruct opened; cbn [negb].
    - destruct Hbad as [Hbad|Hbad]; [discriminate|].
      destruct coordinates as [|c0 [|c1 [|c2 rest]]]; cbn [length] in Hbad;
        try (eexists; split; reflexivity). congruence.
    - eexists; split; reflexivity. }
  destruct Hpeer as (e & Hpeer & Hc).
  exists e. split; [now apply Start_peer_abort|].
  split; [exact Hc|]. rewrite Hc. apply in_nil.
Qed.

(** C5, at the input that breaks it: when the coordinates revealed by peer
    [Pj] are not a point, [Start] applies the cofactor clearing to the
    absent point before it looks at the error, and panics on the nil
    dereference; the error that blames [Pj] is never returned. *)
Theorem Start_invalid_point_panics (c0 c1 : Z) (err : error) :
  DeCommit Cj (UnmarshalDeCommitment r2msg) = (true, [c0; c1]) ->
  NewECPoint (EC (Params round)) c0 c1 = inr err ->
  round3_Start round = (set_rand (begin_round round) rand1, Panic nil_deref).
Proof.
  intros Hde Hpoint. apply Start_peer_crash.
  unfold checkPeer, index. cbn [begin_round temp Params].
  rewrite message_present. cbn [lift flow_bind].
  unfold asSignRound2Message. cbn [deref Go.bind]. rewrite message_round2.
  cbn [lift flow_bind]. rewrite commitment_present. cbn [lift flow_bind].
  rewrite Hde. cbn [negb]. rewrite Hpoint. reflexivity.
Qed.

End AtPeer.

(** *** The hash input *)

(** [flattenByteSlices] on non-empty slices is their concatenation. *)
Lemma copy_at_fits (dst : bytes) (offset : nat) (src : bytes) :
  (offset + length src <= length dst)%nat ->
  copy_at dst offset src
  = take offset dst ++ src ++ drop (offset + length src) dst.
Proof.
  intros H. unfold copy_at. rewrite (take_ge src) by lia. reflexivity.
Qed.

Lemma copyAll_spec (slices : list bytes) :
  forall (flattened : bytes) (offset : nat),
    (offset + length (concat slices) <= length flattened)%nat ->
    copyAll slices flattened offset
    = take offset flattened ++ concat slices
      ++ drop (offset + length (concat slices)) flattened.
Proof.
  induction slices as [|s rest IH]; intros fl off Hfit; cbn [copyAll concat].
  - cbn [length app]. rewrite Nat.add_0_r. now rewrite take_drop.
  - cbn [concat] in Hfit. rewrite length_app in Hfit.
    rewrite copy_at_fits by lia.
    assert (Hoff : length (take off fl) = off) by (rewrite length_take; lia).
    rewrite IH.
    + rewrite (app_assoc (take off fl) s).
      rewrite take_app_length' by (rewrite length_app; lia).
      rewrite drop_app_ge by (rewrite length_app; lia).
      rewrite length_app, Hoff.
      rewrite drop_drop, length_app.
      rewrite <- !app_assoc. do 3 f_equal. f_equal. lia.
    + rewrite !length_app, length_drop. lia.
Qed.

Lemma totalLength_spec (slices : list bytes) :
  Forall (fun s => s <> []) slices ->
  forall acc, totalLength slices acc = Ret (acc + length (concat slices))%nat.
Proof.
  induction 1 as [|s rest Hs _ IH]; intros acc; cbn [totalLength concat].
  - now rewrite Nat.add_0_r.
  - destruct s as [|b s]; [congruence|]. cbn [length Nat.eqb].
    rewrite IH, length_app. cbn [length]. f_equal. lia.
Qed.

Lemma flattenByteSlices_concat (slices : list bytes) :
  Forall (fun s => s <> []) slices ->
  flattenByteSlices slices = Ret (concat slices).
Proof.
  intros H. unfold flattenByteSlices. rewrite totalLength_spec by exact H.
  cbn [Go.bind Nat.add]. f_equal.
  rewrite copyAll_spec by (rewrite repeat_length; lia).
  cbn [take Nat.add app]. rewrite drop_ge by (rewrite repeat_length; lia).
  apply app_nil_r.
Qed.

Lemma totalLength_empty (slices : list bytes) :
  In [] slices -> forall acc, totalLength slices acc = Panic empty_slice_msg.
Proof.
  induction slices as [|s rest IH]; intros Hin acc; [destruct Hin|].
  cbn [totalLength]. destruct s as [|b s]; [reflexivity|].
  destruct Hin as [Hin|Hin]; [discriminate|]. cbn. now apply IH.
Qed.

Lemma flattenByteSlices_empty (slices : list bytes) :
  In [] slices -> flattenByteSlices slices = Panic empty_slice_msg.
Proof.
  intros Hin. unfold flattenByteSlices. now rewrite totalLength_empty.
Qed.

Lemma be_digits_nonempty (fuel : nat) :
  forall n acc, acc <> [] -> be_digits fuel n acc <> [].
Proof.
  induction fuel as [|fuel IH]; intros n acc Hacc; cbn [be_digits];
    [exact Hacc|].
  destruct (n =? 0); [exact Hacc|]. now apply IH.
Qed.

Lemma bigInt_Bytes_empty (x : Z) : bigInt_Bytes x = [] <-> x = 0.
Proof.
  split; [|now intros ->].
  intros H. destruct (Z.eq_dec x 0) as [|Hne]; [assumption|exfalso].
  unfold bigInt_Bytes in H.
  assert (Hpos : 0 < Z.abs x) by lia.
  pose proof (Z.log2_nonneg (Z.abs x)) as Hlog.
  destruct (Z.to_nat (Z.log2 (Z.abs x) + 1)) as [|fuel] eqn:Hfuel; [lia|].
  cbn [be_digits] in H.
  destruct (Z.eqb_spec (Z.abs x) 0) as [|_]; [lia|].
  now apply be_digits_nonempty in H.
Qed.

Lemma array32_nonempty (a : array 32) : slice_of a <> [].
Proof. destruct a as [l Hl]. cbn. intros ->. discriminate. Qed.

(** Only the message segment can be empty, and it is exactly for the zero
    message without a declared length. *)
Lemma empty_segment_iff (round : round3) (encodedR : array 32)
    (segs : list bytes) :
  poseidonInputs round encodedR = Ret segs ->
  In [] segs <-> fullBytesLen (temp round) = 0 /\ m (temp round) = 0.
Proof.
  unfold poseidonInputs, messageBytes.
  destruct (Z.eqb_spec (fullBytesLen (temp round)) 0) as [Hz|Hnz];
    cbn [Go.bind].
  - intros [= <-]. cbn [In app].
    pose proof (bigInt_Bytes_empty (m (temp round))).
    pose proof (array32_nonempty encodedR).
    pose proof (array32_nonempty
                  (ecPointToEncodedBytes (P_X (EDDSAPub round))
                     (P_Y (EDDSAPub round)))).
    intuition congruence.
  - unfold make_bytes.
    destruct (Z.ltb_spec (fullBytesLen (temp round)) 0) as [|Hge];
      cbn [Go.bind]; [discriminate|].
    unfold bigInt_FillBytes.
    destruct (Nat.leb_spec (length (bigInt_Bytes (m (temp round))))
                (Z.to_nat (fullBytesLen (temp round)))) as [Hfit|];
      cbn [Go.bind]; [|discriminate].
    intros [= <-]. cbn [In app].
    pose proof (array32_nonempty encodedR).
    pose proof (array32_nonempty
                  (ecPointToEncodedBytes (P_X (EDDSAPub round))
                     (P_Y (EDDSAPub round)))).
    split; [|tauto].
    intros [?|[?|[Hm|[]]]]; try congruence.
    apply (f_equal (@length byte)) in Hm.
    rewrite length_app, repeat_length in Hm. cbn [length] in Hm. lia.
Qed.

(** C6, as the code has it: when [Start] reaches the hash input with an
    empty segment, [flattenByteSlices] panics; [Start] ends in that panic,
    with the round started, and returns no error. *)
Theorem Start_empty_segment_panics (round : round3) (rand1 : Reader)
    (R : ExtendedGroupElement) (segs : list bytes) :
  started round = false ->
  aggregate (begin_round round) 0 (Parties (Params round))
    (GeScalarMultBase (bigIntToEncodedBytes (ri (temp round))))
    (Rand (Params round))
  = (rand1, Next R) ->
  poseidonInputs (set_rand (begin_round round) rand1) (ToBytes R) = Ret segs ->
  In [] segs ->
  round3_Start round
  = (set_rand (begin_round round) rand1, Panic empty_slice_msg).
Proof.
  intros Hns Hagg Hsegs Hin. unfold round3_Start, nonceAndLambda. rewrite Hns.
  cbn [begin_round Params temp]. fold (begin_round round). rewrite Hagg.
  cbn [flow_bind]. unfold computeLambda. rewrite Hsegs. cbn [lift flow_bind].
  now rewrite flattenByteSlices_empty.
Qed.

(** *** Agreement of the parties on R and lambda *)

Lemma same_point_trans (e1 e2 e3 : ExtendedGroupElement) :
  same_point e1 e2 -> same_point e2 e3 -> same_point e1 e3.
Proof. unfold same_point. congruence. Qed.

Lemma same_point_sym (e1 e2 : ExtendedGroupElement) :
  same_point e1 e2 -> same_point e2 e1.
Proof. unfold same_point. congruence. Qed.

Lemma peers_from_app (l1 l2 : list PartyID) :
  forall j,
    peers_from j (l1 ++ l2)
    = peers_from j l1 ++ peers_from (j + length l1) l2.
Proof.
  induction l1 as [|P l1 IH]; intros j; cbn [app peers_from length].
  - now rewrite Nat.add_0_r.
  - rewrite IH. do 3 f_equal. lia.
Qed.

Lemma peers_from_bounds (ps : list PartyID) :
  forall j k P, In (k, P) (peers_from j ps) -> (j <= k < j + length ps)%nat.
Proof.
  induction ps as [|Q ps IH]; intros j k P Hin; [destruct Hin|].
  cbn [peers_from length In] in *. destruct Hin as [[= <- <-]|Hin]; [lia|].
  apply IH in Hin. lia.
Qed.

(** Two rounds of one session reconstruct the same point for a peer. *)
Lemma checkPeer_same_session (A B : round3) (j : nat) (Pj : PartyID)
    (Rj : ECPoint) :
  same_session A B ->
  checkPeer A j Pj = Next Rj -> checkPeer B j Pj = Next Rj.
Proof.
  intros (Hec & _ & _ & _ & _ & Hssid & Hcjs & Hmsgs).
  unfold checkPeer. rewrite Hec, Hssid, Hcjs, Hmsgs.
  destruct (index (signRound2Messages (temp B)) j) as [msg|];
    cbn [lift flow_bind]; [|discriminate].
  destruct (asSignRound2Message msg) as [r2msg|];
    cbn [lift flow_bind]; [|discriminate].
  destruct (index (cjs (temp B)) j) as [Cj|];
    cbn [lift flow_bind]; [|discriminate].
  destruct (DeCommit Cj (UnmarshalDeCommitment r2msg)) as [opened coords].
  destruct opened; cbn [negb]; [|discriminate].
  destruct coords as [|c0 [|c1 [|c2 rest]]]; try discriminate.
  destruct (NewECPoint (EC (Params B)) c0 c1) as [P|err];
    cbn [deref Go.bind lift flow_bind]; [|discriminate].
  destruct (UnmarshalZKProof r2msg (EC (Params B))) as [proof [e|]];
    [discriminate|].
  destruct (Schnorr.ZKProof_Verify _ _ _) as [[|]|];
    cbn [lift flow_bind negb]; congruence.
Qed.

Lemma same_session_sym (A B : round3) : same_session A B -> same_session B A.
Proof. unfold same_session. intuition congruence. Qed.

Lemma same_session_begin (A : round3) : same_session A (begin_round A).
Proof. unfold same_session. cbn. tauto. Qed.

Lemma same_session_trans (A B C : round3) :
  same_session A B -> same_session B C -> same_session A C.
Proof. unfold same_session. intuition congruence. Qed.

Lemma peer_point_same_session (A B : round3) (rand0 : Reader)
    (kp : nat * PartyID) :
  same_session A B -> peer_point A rand0 kp = peer_point B rand0 kp.
Proof.
  intros HAB. unfold peer_point.
  destruct (checkPeer A (fst kp) (snd kp)) as [Rk|e|msg] eqn:HA.
  - rewrite (checkPeer_same_session A B _ _ _ HAB HA).
    destruct HAB as (-> & _). reflexivity.
  - destruct (checkPeer B (fst kp) (snd kp)) as [Rk|e'|msg'] eqn:HB;
      try reflexivity.
    apply (checkPeer_same_session B A) in HB; [congruence|].
    now apply same_session_sym.
  - destruct (checkPeer B (fst kp) (snd kp)) as [Rk|e'|msg'] eqn:HB;
      try reflexivity.
    apply (checkPeer_same_session B A) in HB; [congruence|].
    now apply same_session_sym.
Qed.

(** The hash input and lambda depend on the session and on R only. *)
Lemma computeLambda_same_session (A B : round3) (encodedR lambda : array 32) :
  same_session A B ->
  computeLambda A encodedR = Next lambda ->
  computeLambda B encodedR = Next lambda.
Proof.
  intros (_ & _ & Hpub & Hm & Hlen & _).
  unfold computeLambda, poseidonInputs, messageBytes.
  rewrite Hpub, Hm, Hlen.
  destruct (if fullBytesLen (temp B) =? 0 then _ else _) as [mBytes|];
    cbn [Go.bind lift flow_bind]; [|discriminate].
  destruct (flattenByteSlices _) as [flat|]; cbn [lift flow_bind];
    [|discriminate].
  destruct (poseidon_HashBytes flat); [trivial|discriminate].
Qed.

Section Agreement.
Context (laws : AggregationLaws lib slib).
Variable ref : nat * PartyID -> ExtendedGroupElement.

Lemma add_all_proper (l : list (nat * PartyID)) :
  forall a a', same_point a a' -> same_point (add_all ref l a) (add_all ref l a').
Proof.
  induction l as [|kp l IH]; intros a a' Ha; [exact Ha|].
  cbn. apply IH. apply add_proper; [exact Ha|reflexivity].
Qed.

Lemma add_all_perm (l l' : list (nat * PartyID)) :
  Permutation l l' ->
  forall a, same_point (add_all ref l a) (add_all ref l' a).
Proof.
  induction 1 as [|x l l' _ IH|x y l|l l' l'' _ IH1 _ IH2]; intros a.
  - reflexivity.
  - cbn. apply IH.
  - cbn. apply add_all_proper.
    eapply same_point_trans; [apply add_assoc|].
    eapply same_point_trans;
      [apply add_proper; [reflexivity|apply add_comm]|].
    apply same_point_sym, add_assoc.
  - eapply same_point_trans; [apply IH1|apply IH2].
Qed.

(** A sum that starts from one of its terms does not depend on which. *)
Lemma add_all_reroot (x y : nat * PartyID) (l l' : list (nat * PartyID)) :
  Permutation (x :: l) (y :: l') ->
  same_point (add_all ref l (ref x)) (add_all ref l' (ref y)).
Proof.
  intros Hp.
  assert (Hin : In y (x :: l)).
  { eapply Permutation_in; [symmetry; exact Hp|left; reflexivity]. }
  destruct Hin as [->|Hin].
  - apply Permutation_cons_inv in Hp. now apply add_all_perm.
  - apply in_split in Hin as (l1 & l2 & ->).
    assert (Hp' : Permutation (x :: l1 ++ l2) l').
    { apply Permutation_cons_inv with (a := y).
      etransitivity; [|exact Hp].
      apply (Permutation_middle (x :: l1) l2 y). }
    eapply same_point_trans.
    { apply add_all_perm. symmetry. apply Permutation_middle. }
    eapply same_point_trans; [|apply (add_all_perm _ _ Hp')].
    cbn. apply add_all_proper, add_comm.
Qed.

Lemma add_all_app (l1 l2 : list (nat * PartyID)) (a : ExtendedGroupElement) :
  add_all ref (l1 ++ l2) a = add_all ref l2 (add_all ref l1 a).
Proof. apply fold_left_app. Qed.

End Agreement.

Section AgreementOfRounds.
Context (laws : AggregationLaws lib slib).

(** Over peers none of which is this party, the loop adds the point of each. *)
Lemma aggregate_others (round : round3) (rand0 : Reader)
    (ps : list PartyID) :
  forall (j : nat) (R R' : ExtendedGroupElement) (rand rand' : Reader),
    (forall k P, In (k, P) (peers_from j ps) ->
                 Z.of_nat k <> Index (PartyId (Params round))) ->
    aggregate round j ps R rand = (rand', Next R') ->
    same_point R' (add_all (peer_point round rand0) (peers_from j ps) R).
Proof.
  induction ps as [|Pj ps IH]; intros j R R' rand rand' Hother Hrun.
  - cbn in Hrun. injection Hrun as _ <-. reflexivity.
  - cbn [aggregate] in Hrun. cbn [peers_from] in *.
    destruct (Z.eqb_spec (Z.of_nat j) (Index (PartyId (Params round))))
      as [Heq|_].
    { exfalso. apply (Hother j Pj); [left; reflexivity|exact Heq]. }
    destruct (checkPeer round j Pj) as [Rj|e|msg] eqn:Hpeer;
      try discriminate.
    destruct (ecPointToExtendedElement _ _ _ rand) as [ext rand1] eqn:Hext.
    apply (IH (S j)) in Hrun;
      [|intros k P Hin; apply (Hother k P); right; exact Hin].
    eapply same_point_trans; [exact Hrun|].
    cbn [add_all fold_left]. apply (add_all_proper laws).
    apply add_proper; [reflexivity|].
    unfold peer_point. cbn [fst snd]. rewrite Hpeer.
    replace ext with (fst (ecPointToExtendedElement (EC (Params round))
                             (P_X Rj) (P_Y Rj) rand)) by now rewrite Hext.
    apply representation_free.
Qed.

(** The loop of the party at position [i] adds the points of all the other
    parties. *)
Lemma aggregate_total (round : round3) (rand0 : Reader) (ps : list PartyID)
    (i : nat) (Pi : PartyID) (R R' : ExtendedGroupElement)
    (rand rand' : Reader) :
  Index (PartyId (Params round)) = Z.of_nat i ->
  ps !! i = Some Pi ->
  aggregate round 0 ps R rand = (rand', Next R') ->
  exists l,
    Permutation ((i, Pi) :: l) (peers_from 0 ps)
    /\ same_point R' (add_all (peer_point round rand0) l R).
Proof.
  intros Hidx Hlook Hrun.
  pose proof (take_drop_middle ps i Pi Hlook) as Hsplit.
  assert (Hlen : length (take i ps) = i).
  { rewrite length_take. apply lookup_lt_Some in Hlook. lia. }
  set (pre := take i ps) in *. set (post := drop (S i) ps) in *.
  rewrite <- Hsplit in Hrun |- *.
  rewrite aggregate_app in Hrun.
  destruct (aggregate round 0 pre R rand) as [rand1 [R1|e|msg]] eqn:Hpre;
    try discriminate.
  cbn [aggregate Nat.add] in Hrun. rewrite Hlen, Hidx, Z.eqb_refl in Hrun.
  exists (peers_from 0 pre ++ peers_from (S i) post). split.
  - rewrite peers_from_app. cbn [peers_from Nat.add]. rewrite Hlen.
    apply Permutation_middle.
  - rewrite add_all_app.
    apply (aggregate_others round rand0) in Hpre.
    + apply (aggregate_others round rand0) in Hrun.
      * eapply same_point_trans; [exact Hrun|].
        now apply (add_all_proper laws).
      * intros k P Hin. apply peers_from_bounds in Hin. rewrite Hidx. lia.
    + intros k P Hin. apply peers_from_bounds in Hin. rewrite Hidx. lia.
Qed.

Lemma add_all_ext (ref ref' : nat * PartyID -> ExtendedGroupElement)
    (l : list (nat * PartyID)) :
  (forall kp, ref kp = ref' kp) ->
  forall a, add_all ref l a = add_all ref' l a.
Proof.
  intros Href. induction l as [|kp l IH]; intros a; [reflexivity|].
  cbn. rewrite Href. apply IH.
Qed.

(** What an honest party starts its sum from is its own point, as the
    others reconstruct it. *)
Lemma honest_base (round : round3) (rand0 : Reader) :
  honest round ->
  exists (i : nat) (Pi : PartyID),
    Index (PartyId (Params round)) = Z.of_nat i
    /\ Parties (Params round) !! i = Some Pi
    /\ same_point
         (GeScalarMultBase (bigIntToEncodedBytes (ri (temp round))))
         (peer_point round rand0 (i, Pi)).
Proof.
  intros (i & Pi & Ri & Hidx & Hlook & Hpeer & Hnonce).
  exists i, Pi. repeat split; try assumption.
  unfold peer_point. cbn [fst snd]. rewrite Hpeer. apply Hnonce.
Qed.

(** C8. Given correct edwards25519 arithmetic, two honest parties of one
    signing session (same parties, commitments, round 2 messages, public
    key and message) that both get as far as computing lambda in [Start]
    compute the same encoded R and the same reduced lambda, whatever their
    indices, nonces and readers, and whatever the readers deliver while the
    points are aggregated. *)
Theorem honest_parties_agree (A B : round3)
    (encodedR_A lambda_A encodedR_B lambda_B : array 32) :
  same_session A B ->
  honest A ->
  honest B ->
  Start_locals A = Some (encodedR_A, lambda_A) ->
  Start_locals B = Some (encodedR_B, lambda_B) ->
  encodedR_A = encodedR_B /\ lambda_A = lambda_B.
Proof.
  intros Hsess HhA HhB HA HB.
  set (rand0 := Rand (Params A)).
  destruct (honest_base A rand0 HhA) as (iA & PA & HiA & HlA & HbaseA).
  destruct (honest_base B rand0 HhB) as (iB & PB & HiB & HlB & HbaseB).
  unfold Start_locals, nonceAndLambda in HA, HB.
  destruct (aggregate (begin_round A) _ _ _ _) as [randA [RA|e|msg]] eqn:HaggA;
    try discriminate.
  destruct (aggregate (begin_round B) _ _ _ _) as [randB [RB|e|msg]] eqn:HaggB;
    try discriminate.
  cbn [snd flow_bind] in HA, HB.
  destruct (computeLambda (set_rand (begin_round A) randA) _)
    as [lA|e|msg] eqn:HlamA; try discriminate.
  destruct (computeLambda (set_rand (begin_round B) randB) _)
    as [lB|e|msg] eqn:HlamB; try discriminate.
  cbn [flow_bind] in HA, HB.
  injection HA as <- <-. injection HB as <- <-.
  cbn [begin_round Params temp] in HaggA, HaggB.
  fold (begin_round A) in HaggA. fold (begin_round B) in HaggB.
  apply (aggregate_total (begin_round A) rand0 _ iA PA) in HaggA;
    [|exact HiA|exact HlA].
  apply (aggregate_total (begin_round B) rand0 _ iB PB) in HaggB;
    [|exact HiB|exact HlB].
  destruct HaggA as (la & HpermA & HsumA).
  destruct HaggB as (lb & HpermB & HsumB).
  assert (HparamsAB : Parties (Params A) = Parties (Params B))
    by (destruct Hsess as (_ & H & _); exact H).
  assert (Hperm : Permutation ((iA, PA) :: la) ((iB, PB) :: lb)).
  { etransitivity; [exact HpermA|]. rewrite HparamsAB. symmetry. exact HpermB. }
  assert (HrefA : forall kp,
             peer_point (begin_round A) rand0 kp = peer_point A rand0 kp).
  { intros kp. symmetry. apply peer_point_same_session, same_session_begin. }
  assert (HrefB : forall kp,
             peer_point (begin_round B) rand0 kp = peer_point A rand0 kp).
  { intros kp. symmetry. apply peer_point_same_session.
    eapply same_session_trans; [exact Hsess|apply same_session_begin]. }
  rewrite (add_all_ext _ _ la HrefA) in HsumA.
  rewrite (add_all_ext _ _ lb HrefB) in HsumB.
  rewrite <- (peer_point_same_session A B rand0 (iB, PB) Hsess) in HbaseB.
  assert (Hsame : same_point RA RB).
  { eapply same_point_trans; [exact HsumA|].
    eapply same_point_trans; [apply (add_all_proper laws), HbaseA|].
    eapply same_point_trans;
      [apply (add_all_reroot laws (peer_point A rand0) _ _ _ _ Hperm)|].
    apply same_point_sym.
    eapply same_point_trans; [exact HsumB|].
    apply (add_all_proper laws), HbaseB. }
  unfold same_point in Hsame. split; [exact Hsame|].
  rewrite Hsame in HlamA.
  apply (computeLambda_same_session _ (set_rand (begin_round B) randB))
    in HlamA; [congruence|].
  unfold same_session in *. cbn. exact Hsess.
Qed.

End AgreementOfRounds.

(** The locals are those of the run: when [Start] returns nil, the round
    holds the encoded R as [temp.r] and the share computed from lambda as
    [temp.si]. *)
Lemma Start_locals_of_Start (round round' : round3) :
  started round = false ->
  round3_Start round = (round', Ret None) ->
  exists encodedR lambdaReduced,
    Start_locals round = Some (encodedR, lambdaReduced)
    /\ r (temp round') = Some (encodedBytesToBigInt encodedR)
    /\ si (temp round')
       = Some (ScMulAdd lambdaReduced (bigIntToEncodedBytes (wi (temp round)))
                 (bigIntToEncodedBytes (ri (temp round)))).
Proof.
  intros Hns. unfold round3_Start, Start_locals, nonceAndLambda. rewrite Hns.
  destruct (aggregate _ _ _ _ _) as [rand' [R|e|msg]]; try discriminate.
  cbn [snd flow_bind].
  destruct (computeLambda _ _) as [l|e|msg]; try discriminate.
  cbn [flow_bind].
  destruct (store_at _ _ _) as [msgs|]; [|discriminate].
  intros [= <-]. eexists _, _. split; [reflexivity|]. split; reflexivity.
Qed.

End WithLib.

(** *** Concrete rounds *)

Lemma Start_decommit_failure_unattributed_witness :
  exists e,
    round3_Start (Toy.round_of 0 3 2 1234 0 [1] Toy.bad_decommit)
    = (set_rand (begin_round (Toy.round_of 0 3 2 1234 0 [1] Toy.bad_decommit))
         [1], Ret (Some e))
    /\ culprits e = []
    /\ ~ In (Toy.party 1) (culprits e).
Proof.
  apply (Start_decommit_failure_unattributed
           (lib := Toy.lib) (slib := Toy.slib)
           (Toy.round_of 0 3 2 1234 0 [1] Toy.bad_decommit)
           [Toy.party 0] [Toy.party 2] (Toy.party 1) [1] (3, 1)
           eq_refl eq_refl ltac:(discriminate) eq_refl
           (Toy.message_of 1 Toy.bad_decommit_payload)
           Toy.bad_decommit_payload 10 eq_refl eq_refl eq_refl
           false [6; 0] eq_refl (or_introl eq_refl)).
Defined.

Lemma Start_invalid_point_panics_witness :
  round3_Start (Toy.round_of 0 3 2 1234 0 [1] Toy.bad_point)
  = (set_rand (begin_round (Toy.round_of 0 3 2 1234 0 [1] Toy.bad_point)) [1],
     Panic nil_deref).
Proof.
  apply (Start_invalid_point_panics
           (lib := Toy.lib) (slib := Toy.slib)
           (Toy.round_of 0 3 2 1234 0 [1] Toy.bad_point)
           [Toy.party 0] [Toy.party 2] (Toy.party 1) [1] (3, 1)
           eq_refl eq_refl ltac:(discriminate) eq_refl
           (Toy.message_of 1 Toy.bad_point_payload)
           Toy.bad_point_payload 10 eq_refl eq_refl eq_refl
           20 0 "NewECPoint: the given point is not on the elliptic curve"
           eq_refl eq_refl).
Defined.

Lemma Start_empty_segment_panics_witness :
  round3_Start (Toy.round_of 0 3 2 0 0 [1] Toy.r2msgs)
  = (set_rand (begin_round (Toy.round_of 0 3 2 0 0 [1] Toy.r2msgs)) [],
     Panic empty_slice_msg).
Proof.
  eapply (Start_empty_segment_panics (lib := Toy.lib) (slib := Toy.slib)
            (Toy.round_of 0 3 2 0 0 [1] Toy.r2msgs) [] (15, 2)).
  - reflexivity.
  - reflexivity.
  - reflexivity.
  - right. right. left. reflexivity.
Defined.

Lemma Update_idempotent_monotone_witness :
  exists ret,
    snd (round3_Update Toy.waiting) = Ret (ret, None)
    /\ round3_Update (fst (round3_Update Toy.waiting))
       = (fst (round3_Update Toy.waiting), Ret (ret, None))
    /\ (forall k, ok Toy.waiting !! k = Some true ->
                  ok (fst (round3_Update Toy.waiting)) !! k = Some true)
    /\ (ret = true
        <-> forall k b, ok (fst (round3_Update Toy.waiting)) !! k = Some b ->
                        b = true).
Proof.
  apply (Update_idempotent_monotone (lib := Toy.lib) (slib := Toy.slib)
           Toy.waiting).
  reflexivity.
Defined.

Lemma toy_decode_encode (z : Z) : Toy.decode (Toy.encode z) = z mod 256.
Proof.
  unfold Toy.encode, Toy.decode. cbn [copy_array slice_of proj1_sig].
  cbn [copy_into take app]. unfold byte_of_Z.
  assert (Hz : 0 <= z mod 256 < 256) by (apply Z.mod_pos_bound; lia).
  destruct (Byte.of_N (Z.to_N (z mod 256))) as [b|] eqn:Hb.
  - apply Byte.to_of_N in Hb. rewrite Hb. lia.
  - apply Byte.of_N_None_iff in Hb. lia.
Qed.

Lemma toy_same_point (e1 e2 : Z * Z) :
  same_point (lib := Toy.lib) (slib := Toy.slib) e1 e2
  <-> fst e1 mod Toy.N = fst e2 mod Toy.N.
Proof.
  unfold same_point. cbn [ToBytes Toy.slib]. split; [|now intros ->].
  intros H. apply (f_equal Toy.decode) in H.
  rewrite !toy_decode_encode in H. unfold Toy.N in *.
  assert (0 <= fst e1 mod 11 < 11) by (apply Z.mod_pos_bound; lia).
  assert (0 <= fst e2 mod 11 < 11) by (apply Z.mod_pos_bound; lia).
  rewrite (Z.mod_small (fst e1 mod 11)), (Z.mod_small (fst e2 mod 11)) in H
    by lia.
  exact H.
Qed.

Lemma toy_aggregation_laws : AggregationLaws Toy.lib Toy.slib.
Proof.
  split.
  - intros e1 e1' e2 e2' H1 H2. apply toy_same_point in H1, H2.
    apply toy_same_point. cbn [addExtendedElements Toy.slib fst].
    unfold Toy.N in *.
    rewrite (Z.add_mod (fst e1)), (Z.add_mod (fst e1')) by lia.
    now rewrite H1, H2.
  - intros e1 e2. apply toy_same_point.
    cbn [addExtendedElements Toy.slib fst]. f_equal. lia.
  - intros e1 e2 e3. apply toy_same_point.
    cbn [addExtendedElements Toy.slib fst]. f_equal. lia.
  - intros ec x y rand rand'. apply toy_same_point.
    cbn [ecPointToExtendedElement Toy.slib].
    destruct (Toy.draw rand Toy.N), (Toy.draw rand' Toy.N). reflexivity.
Qed.

Lemma toy_same_session :
  same_session (lib := Toy.lib) (slib := Toy.slib) Toy.round0 Toy.round1.
Proof. repeat split. Qed.

Lemma toy_honest0 : honest (lib := Toy.lib) (slib := Toy.slib) Toy.round0.
Proof.
  exists 0%nat, (Toy.party 0), 3. repeat split.
  intros rand. apply toy_same_point.
  cbn [ecPointToExtendedElement Toy.slib].
  destruct (Toy.draw rand Toy.N). reflexivity.
Qed.

Lemma toy_honest1 : honest (lib := Toy.lib) (slib := Toy.slib) Toy.round1.
Proof.
  exists 1%nat, (Toy.party 1), 5. repeat split.
  intros rand. apply toy_same_point.
  cbn [ecPointToExtendedElement Toy.slib].
  destruct (Toy.draw rand Toy.N). reflexivity.
Qed.

Lemma honest_parties_agree_witness :
  exists encodedR_A lambda_A encodedR_B lambda_B : array 32,
    Start_locals (lib := Toy.lib) (slib := Toy.slib) Toy.round0
    = Some (encodedR_A, lambda_A)
    /\ Start_locals (lib := Toy.lib) (slib := Toy.slib) Toy.round1
       = Some (encodedR_B, lambda_B)
    /\ encodedR_A = encodedR_B /\ lambda_A = lambda_B.
Proof.
  eexists _, _, _, _.
  split; [reflexivity|]. split; [reflexivity|].
  apply (honest_parties_agree (lib := Toy.lib) (slib := Toy.slib)
           toy_aggregation_laws Toy.round0 Toy.round1 _ _ _ _
           toy_same_session toy_honest0 toy_honest1);
    reflexivity.
Defined.

(** C6, as the spec has it, fails: signing the zero message without a
    declared length, the message segment is empty and [Start] panics; it
    returns no error. *)
Lemma Start_empty_message_no_error :
  let round := Toy.round_of 0 3 2 0 0 [1] Toy.r2msgs in
  messageBytes (temp round) = Ret []
  /\ snd (round3_Start round) = Panic empty_slice_msg
  /\ ~ exists e : tssError, snd (round3_Start round) = Ret (Some e).
Proof.
  cbv zeta. split; [reflexivity|].
  assert (H : snd (round3_Start (Toy.round_of 0 3 2 0 0 [1] Toy.r2msgs))
              = Panic empty_slice_msg) by (vm_compute; reflexivity).
  split; [exact H|]. rewrite H. intros [e He]. discriminate.
Qed.

End SigningProofs.

(** ** Further properties of the schnorr package *)

Module SchnorrExtra.
Import Schnorr.

Section WithLib.
Context {lib : CryptoLib}.

(** [NewZKProof] returns its error, no proof and the reader as it got it
    exactly when [x] is nil, [X] is nil or [X] fails validation; for any
    other arguments it returns a proof that passes [ValidateBasic] and no
    error. *)
Theorem NewZKProof_error_iff (Session : bytes) (x : option Z)
    (X : option ECPoint) (rand : Reader) :
  (NewZKProof Session x X rand = Ret ((None, Some errZKProof), rand)
   <-> x = None \/ X = None \/ ValidateBasic X = false)
  /\ ((forall res rand', NewZKProof Session x X rand = Ret (res, rand') ->
                         fst res = None <-> snd res <> None)
      /\ (x <> None /\ ValidateBasic X = true ->
          exists pf rand',
            NewZKProof Session x X rand = Ret ((Some pf, None), rand')
            /\ ZKProof_ValidateBasic pf = true)).
Proof.
  unfold NewZKProof.
  destruct x as [xv|], X as [Xp|]; cbn [is_nil orb negb ValidateBasic].
  - destruct (validate Xp) eqn:Hv; cbn [negb deref Go.bind bigInt_Mul].
    + destruct (GetRandomPositiveInt rand (Params_N (P_Curve Xp)))
        as [a rand1].
      split; [|split].
      * split; [discriminate|]. intros [H|[H|H]]; discriminate.
      * intros res rand' [= <- _]. cbn. split; [discriminate|congruence].
      * intros _. eexists _, _. split; reflexivity.
    + split; [|split].
      * split; auto.
      * intros res rand' [= <- _]. cbn. split; [discriminate|reflexivity].
      * intros [_ H]. discriminate.
  - split; [|split].
    + split; auto.
    + intros res rand' [= <- _]. cbn. split; [discriminate|reflexivity].
    + intros [_ H]. discriminate.
  - split; [|split].
    + split; auto.
    + intros res rand' [= <- _]. cbn. split; [discriminate|reflexivity].
    + intros [H _]. congruence.
  - split; [|split].
    + split; auto.
    + intros res rand' [= <- _]. cbn. split; [discriminate|reflexivity].
    + intros [H _]. congruence.
Qed.

(** [NewZKProofBJJ] returns its error, no proof and the reader as it got it
    exactly when [X] is nil or fails the BJJ validation; with a valid [X] and
    a non-nil [x] it returns a proof that passes [ValidateBasic]. *)
Theorem NewZKProofBJJ_error_iff (Session : bytes) (x : option Z)
    (X : option ECPoint) (rand : Reader) :
  (NewZKProofBJJ Session x X rand = Ret ((None, Some errBJJ), rand)
   <-> ValidateBasicBJJ X = false)
  /\ (x <> None /\ ValidateBasicBJJ X = true ->
      exists pf rand',
        NewZKProofBJJ Session x X rand = Ret ((Some pf, None), rand')
        /\ ZKProof_ValidateBasic pf = true).
Proof.
  unfold NewZKProofBJJ.
  destruct (ValidateBasicBJJ X) eqn:Hv; cbn [negb].
  - destruct X as [Xp|]; [|discriminate]. cbn [deref Go.bind].
    destruct (GetRandomPositiveInt rand (Params_N (P_Curve Xp))) as [a rand1].
    destruct x as [xv|]; cbn [bigInt_Mul Go.bind].
    + split; [split; discriminate|]. intros _. eexists _, _.
      split; reflexivity.
    + split; [split; discriminate|]. intros [H _]. congruence.
  - split; [tauto|]. intros [_ H]. discriminate.
Qed.

(** A proof built by [NewZKProofBJJ] for X = g^x is accepted by
    [ZKProof.Verify], which multiplies the base point with [ScalarBaseMult],
    whenever the BJJ multiplication of the drawn blinding scalar gives the
    same point as [ScalarBaseMult]. *)
Theorem NewZKProofBJJ_verifies (laws : GroupLaws lib) (Session : bytes)
    (x : Z) (X : ECPoint) (rand rand' : Reader) (a : Z) :
  validateBJJ X = true ->
  X = ScalarBaseMult (P_Curve X) x ->
  GetRandomPositiveInt rand (Params_N (P_Curve X)) = (a, rand') ->
  ScalarBaseMultBJJ (P_Curve X) a = ScalarBaseMult (P_Curve X) a ->
  exists pf,
    NewZKProofBJJ Session (Some x) (Some X) rand = Ret ((Some pf, None), rand')
    /\ ZKProof_Verify (Some pf) Session (Some X) = Ret true.
Proof.
  intros Hvalid HX Hdraw Hsame.
  unfold NewZKProofBJJ. cbn [ValidateBasicBJJ]. rewrite Hvalid.
  cbn [negb deref Go.bind]. rewrite Hdraw. cbn [bigInt_Mul Go.bind].
  eexists. split; [reflexivity|].
  unfold ZKProof_Verify, ZKProof_ValidateBasic.
  cbn [T Alpha is_nil negb andb deref Go.bind].
  rewrite Hsame.
  set (ec := P_Curve X).
  set (c := challenge Session (Params_N ec) X _ _).
  unfold ModInt_Add. rewrite base_order.
  rewrite HX at 1. fold ec. rewrite base_mult, base_add.
  replace (a + c * x) with (a + x * c) by lia.
  now rewrite SchnorrProofs.same_coords_refl.
Qed.

(** The verifier of the discrete-log proof does not check that the response
    is reduced: on a correct group a response and the same response plus a
    multiple of the order are accepted alike. *)
Theorem ZKProof_Verify_response_mod (laws : GroupLaws lib) (Session : bytes)
    (X : ECPoint) (A : option ECPoint) (t k : Z) :
  ZKProof_Verify (Some (mkZKProof A (Some (t + k * Params_N (P_Curve X)))))
    Session (Some X)
  = ZKProof_Verify (Some (mkZKProof A (Some t))) Session (Some X).
Proof.
  unfold ZKProof_Verify, ZKProof_ValidateBasic.
  cbn [T Alpha is_nil negb andb].
  destruct A as [Ap|]; cbn [is_nil negb deref Go.bind]; [|reflexivity].
  rewrite <- (base_order (P_Curve X) (t + k * Params_N (P_Curve X))).
  rewrite Z_mod_plus_full, base_order. reflexivity.
Qed.

(** [NewZKVProof] returns its error, no proof and the reader as it got it
    exactly when one of V, R, s, l is nil or V or R fails validation. For
    any other arguments it draws two blinding scalars; when the sum
    [a]R + [b]g cannot be formed it panics on the nil commitment, whose
    error it discarded, and otherwise it returns a proof none of whose
    fields is nil, and no error. *)
Theorem NewZKVProof_outcomes (Session : bytes) (V R : option ECPoint)
    (s l : option Z) (rand : Reader) :
  (NewZKVProof Session V R s l rand = Ret ((None, Some errZKVProof), rand)
   <-> V = None \/ R = None \/ s = None \/ l = None
       \/ ValidateBasic V = false \/ ValidateBasic R = false)
  /\ (forall (Vp Rp : ECPoint) (sv lv a b : Z) (rand1 rand2 : Reader),
        V = Some Vp -> R = Some Rp -> s = Some sv -> l = Some lv ->
        validate Vp = true -> validate Rp = true ->
        GetRandomPositiveInt rand (Params_N (P_Curve Vp)) = (a, rand1) ->
        GetRandomPositiveInt rand1 (Params_N (P_Curve Vp)) = (b, rand2) ->
        match Add (ScalarMult Rp a) (ScalarBaseMult (P_Curve Vp) b) with
        | inr _ => NewZKVProof Session V R s l rand = Panic nil_deref
        | inl alpha =>
            exists t u,
              NewZKVProof Session V R s l rand
              = Ret ((Some (mkZKVProof (Some alpha) (Some t) (Some u)), None),
                     rand2)
        end).
Proof.
  split.
  - unfold NewZKVProof.
    destruct V as [Vp|], R as [Rp|], s as [sv|], l as [lv|];
      cbn [is_nil orb negb ValidateBasic];
      try (split; [intros _|reflexivity]; tauto).
    destruct (validate Vp) eqn:HV, (validate Rp) eqn:HR;
      cbn [negb orb];
      try (split; [intros _|reflexivity]; tauto).
    cbn [deref Go.bind].
    destruct (GetRandomPositiveInt rand _) as [a rand1].
    destruct (GetRandomPositiveInt rand1 _) as [b rand2].
    destruct (Add _ _) as [alpha|e]; cbn [deref Go.bind bigInt_Mul].
    + split; [discriminate|].
      intros [H|[H|[H|[H|[H|H]]]]]; discriminate.
    + split; [discriminate|].
      intros [H|[H|[H|[H|[H|H]]]]]; discriminate.
  - intros Vp Rp sv lv a b rand1 rand2 -> -> -> -> HV HR Ha Hb.
    unfold NewZKVProof. cbn [is_nil orb negb ValidateBasic].
    rewrite HV, HR. cbn [negb orb deref Go.bind]. rewrite Ha, Hb.
    destruct (Add _ _) as [alpha|e]; cbn [deref Go.bind bigInt_Mul].
    + eexists _, _. reflexivity.
    + reflexivity.
Qed.

(** Completeness of the dual-exponent proof on a correct group: for a valid
    R that is a multiple of the base point and a valid V = [s]R + [l]g,
    [NewZKVProof] returns a proof, and [ZKVProof.Verify] accepts it exactly
    when its commitment Alpha passes point validation (the verifier
    validates Alpha, the constructor does not). *)
Theorem NewZKVProof_complete (laws : GroupLaws lib) (Session : bytes)
    (V R : ECPoint) (s l r : Z) (rand : Reader) :
  validate V = true ->
  validate R = true ->
  R = ScalarBaseMult (P_Curve V) r ->
  Add (ScalarMult R s) (ScalarBaseMult (P_Curve V) l) = inl V ->
  exists pf rand',
    NewZKVProof Session (Some V) (Some R) (Some s) (Some l) rand
    = Ret ((Some pf, None), rand')
    /\ ZKVProof_Verify (Some pf) Session (Some V) (Some R)
       = Ret (ValidateBasic (VAlpha pf)).
Proof.
  intros HV HR HRr HVsum.
  set (ec := P_Curve V) in *.
  assert (Hsum : forall x y,
             Add (ScalarMult R x) (ScalarBaseMult ec y)
             = inl (ScalarBaseMult ec (r * x + y))).
  { intros x y. rewrite HRr, base_mult, base_add. reflexivity. }
  assert (HVv : V = ScalarBaseMult ec (r * s + l)).
  { rewrite Hsum in HVsum. now injection HVsum. }
  unfold NewZKVProof. cbn [is_nil orb negb ValidateBasic].
  rewrite HV, HR. cbn [negb orb deref Go.bind]. fold ec.
  destruct (GetRandomPositiveInt rand (Params_N ec)) as [a rand1].
  destruct (GetRandomPositiveInt rand1 (Params_N ec)) as [b rand2].
  rewrite Hsum. cbn [deref Go.bind bigInt_Mul].
  eexists _, _. split; [reflexivity|].
  unfold ZKVProof_Verify, ZKVProof_ValidateBasic.
  cbn [VAlpha VT VU is_nil negb andb ValidateBasic].
  destruct (validate (ScalarBaseMult ec (r * a + b))) eqn:Halpha;
    cbn [negb]; [|reflexivity].
  cbn [deref Go.bind]. fold ec.
  set (c := challengeV Session (Params_N ec) V R _ _).
  unfold ModInt_Add. rewrite Hsum.
  pose proof (base_mult ec (r * s + l) c) as HVc. rewrite <- HVv in HVc.
  rewrite HVc, base_add.
  rewrite <- (base_order ec
                (r * ((a + c * s) mod Params_N ec)
                 + (b + c * l) mod Params_N ec)).
  rewrite <- (base_order ec (r * a + b + (r * s + l) * c)).
  replace ((r * ((a + c * s) mod Params_N ec)
            + (b + c * l) mod Params_N ec) mod Params_N ec)
    with ((r * a + b + (r * s + l) * c) mod Params_N ec).
  - cbn [deref Go.bind]. now rewrite SchnorrProofs.same_coords_refl.
  - transitivity ((r * (a + c * s) + (b + c * l)) mod Params_N ec).
    + f_equal. ring.
    + rewrite (Zplus_mod (r * ((a + c * s) mod Params_N ec))).
      rewrite Zmult_mod_idemp_r, Zmod_mod, <- Zplus_mod. reflexivity.
Qed.

End WithLib.

Lemma NewZKProofBJJ_verifies_witness :
  exists pf,
    NewZKProofBJJ (lib := Toy.lib) Toy.session (Some 3) (Some 3) [4]
    = Ret ((Some pf, None), [])
    /\ ZKProof_Verify (Some pf) Toy.session (Some 3) = Ret true.
Proof.
  apply (NewZKProofBJJ_verifies (lib := Toy.lib) SchnorrProofs.toy_group_laws
           Toy.session 3 3 [4] [] 4);
    reflexivity.
Defined.

Lemma ZKProof_Verify_response_mod_witness :
  ZKProof_Verify (lib := Toy.lib)
    (Some (mkZKProof (lib := Toy.lib) (Some 4) (Some (8 + 2 * 11))))
    Toy.session (Some 3)
  = ZKProof_Verify (lib := Toy.lib)
      (Some (mkZKProof (lib := Toy.lib) (Some 4) (Some 8)))
      Toy.session (Some 3).
Proof.
  exact (ZKProof_Verify_response_mod (lib := Toy.lib)
           SchnorrProofs.toy_group_laws Toy.session 3 (Some 4) 8 2).
Defined.

Lemma NewZKVProof_complete_witness :
  exists pf rand',
    NewZKVProof (lib := Toy.lib) Toy.session (Some 2) (Some 5) (Some 2)
      (Some 3) [4; 7]
    = Ret ((Some pf, None), rand')
    /\ ZKVProof_Verify (Some pf) Toy.session (Some 2) (Some 5)
       = Ret (ValidateBasic (VAlpha pf)).
Proof.
  apply (NewZKVProof_complete (lib := Toy.lib) SchnorrProofs.toy_group_laws
           Toy.session 2 5 2 3 5 [4; 7]);
    reflexivity.
Defined.

Lemma ZKVProof_Verify_discarded_error_witness :
  ZKVProof_Verify (lib := ToyPartial.lib)
    (Some (mkZKVProof (lib := ToyPartial.lib) (Some 3) (Some 1) (Some 6)))
    Toy.session (Some 2) (Some 5)
  = Panic nil_deref.
Proof.
  apply (SchnorrProofs.ZKVProof_Verify_discarded_error
           (lib := ToyPartial.lib) Toy.session 2 5 3 1 6
           "NewECPoint: the given point is not on the elliptic curve" 2);
    reflexivity.
Defined.

End SchnorrExtra.

(** ** Further properties of round 3 *)

Module SigningExtra.
Import Signing SigningProofs Variations.

Section WithLib.
Context {lib : CryptoLib} {slib : SigningLib}.

(** *** The hash input *)

(** [flattenByteSlices] panics exactly when one of the slices is empty, and
    otherwise returns the concatenation of the slices in order. *)
Theorem flattenByteSlices_spec (slices : list bytes) :
  flattenByteSlices slices
  = if existsb (fun s : bytes => (length s =? 0)%nat) slices
    then Panic empty_slice_msg
    else Ret (concat slices).
Proof.
  destruct (existsb (fun s : bytes => (length s =? 0)%nat) slices) eqn:Hex.
  - apply flattenByteSlices_empty. apply existsb_exists in Hex.
    destruct Hex as (s & Hin & Hs). apply Nat.eqb_eq in Hs.
    destruct s; [exact Hin|discriminate].
  - apply flattenByteSlices_concat. apply Forall_forall. intros s Hin ->.
    apply list_elem_of_In in Hin.
    assert (existsb (fun s : bytes => (length s =? 0)%nat) slices = true)
      by (apply existsb_exists; exists []; split; [exact Hin|reflexivity]).
    congruence.
Qed.

Lemma computeLambda_hashes (round : round3) (encodedR : array 32)
    (mBytes : bytes) :
  messageBytes (temp round) = Ret mBytes ->
  mBytes <> [] ->
  computeLambda round encodedR
  = match poseidon_HashBytes
            (slice_of encodedR
             ++ slice_of (ecPointToEncodedBytes (P_X (EDDSAPub round))
                            (P_Y (EDDSAPub round)))
             ++ mBytes) with
    | inl poseidonHash =>
        Next (ScReduce (copy_array 64 (bigInt_Bytes poseidonHash)))
    | inr err =>
        Abort (WrapError round (errors_Wrap err "Poseidon hashing failed") [])
    end.
Proof.
  intros Hm Hne. unfold computeLambda, poseidonInputs. rewrite Hm.
  cbn [Go.bind lift flow_bind].
  rewrite flattenByteSlices_concat.
  - cbn [lift flow_bind concat app]. rewrite app_nil_r. reflexivity.
  - repeat constructor; try apply array32_nonempty. exact Hne.
Qed.

(** When the message segment is not empty, step 7 of [Start] hashes the 32
    bytes of the encoded R, then the 32 bytes of the encoded public key,
    then the message segment, 64 bytes and the message in all; lambda is
    the reduction of the hash laid out big-endian in 64 bytes, and a failure
    of the hash is returned as an error that blames nobody. *)
Theorem computeLambda_input (round : round3) (encodedR : array 32)
    (mBytes : bytes) :
  messageBytes (temp round) = Ret mBytes ->
  mBytes <> [] ->
  let encodedPubKey :=
    ecPointToEncodedBytes (P_X (EDDSAPub round)) (P_Y (EDDSAPub round)) in
  let input := slice_of encodedR ++ slice_of encodedPubKey ++ mBytes in
  length input = (64 + length mBytes)%nat
  /\ computeLambda round encodedR
     = match poseidon_HashBytes input with
       | inl poseidonHash =>
           Next (ScReduce (copy_array 64 (bigInt_Bytes poseidonHash)))
       | inr err =>
           Abort (WrapError round (errors_Wrap err "Poseidon hashing failed") [])
       end.
Proof.
  intros Hm Hne encodedPubKey input. split.
  - unfold input. rewrite !length_app.
    destruct encodedR as [l1 H1], encodedPubKey as [l2 H2].
    cbn [slice_of proj1_sig]. lia.
  - now apply computeLambda_hashes.
Qed.

Lemma be_digits_length_ge (fuel : nat) :
  forall n acc, (length acc <= length (be_digits fuel n acc))%nat.
Proof.
  induction fuel as [|fuel IH]; intros n acc; cbn [be_digits]; [lia|].
  destruct (n =? 0); [lia|].
  specialize (IH (n / 256) (byte_of_Z n :: acc)). cbn [length] in IH. lia.
Qed.

Lemma be_digits_fits (fuel : nat) :
  forall (n : Z) (acc : bytes) (k : nat),
    0 <= n < 2 ^ Z.of_nat fuel ->
    (length (be_digits fuel n acc) <= length acc + k)%nat
    <-> n < 256 ^ Z.of_nat k.
Proof.
  induction fuel as [|fuel IH]; intros n acc k Hn.
  - cbn [be_digits]. cbn in Hn. assert (n = 0) by lia. subst n.
    split; [intros _; apply Z.pow_pos_nonneg; lia|lia].
  - cbn [be_digits]. destruct (Z.eqb_spec n 0) as [->|Hnz].
    + split; [intros _; apply Z.pow_pos_nonneg; lia|lia].
    + assert (Hdiv : 0 <= n / 256 < 2 ^ Z.of_nat fuel).
      { split; [apply Z.div_pos; lia|].
        apply Z.div_lt_upper_bound; [lia|].
        rewrite Nat2Z.inj_succ, Z.pow_succ_r in Hn by lia.
        assert (0 < 2 ^ Z.of_nat fuel) by (apply Z.pow_pos_nonneg; lia).
        lia. }
      destruct k as [|k].
      * pose proof (be_digits_length_ge fuel (n / 256) (byte_of_Z n :: acc)) as H.
        cbn [length] in H. cbn. split; lia.
      * specialize (IH (n / 256) (byte_of_Z n :: acc) k Hdiv).
        cbn [length] in IH.
        replace (length acc + S k)%nat with (S (length acc) + k)%nat by lia.
        rewrite IH. rewrite Nat2Z.inj_succ, Z.pow_succ_r by lia.
        split; intros H.
        -- pose proof (Z.div_mod n 256 ltac:(lia)).
           pose proof (Z.mod_pos_bound n 256 ltac:(lia)). lia.
        -- apply Z.div_lt_upper_bound; lia.
Qed.

(** [big.Int.Bytes] needs at most [k] bytes exactly for the values below
    256^k in absolute value. *)
Lemma bigInt_Bytes_fits (x : Z) (k : nat) :
  (length (bigInt_Bytes x) <= k)%nat <-> Z.abs x < 256 ^ Z.of_nat k.
Proof.
  unfold bigInt_Bytes.
  apply (be_digits_fits (Z.to_nat (Z.log2 (Z.abs x) + 1)) (Z.abs x) [] k).
  split; [lia|].
  pose proof (Z.log2_nonneg (Z.abs x)).
  rewrite Z2Nat.id by lia.
  destruct (Z.eq_dec (Z.abs x) 0) as [->|]; [cbn; lia|].
  apply Z.log2_spec. lia.
Qed.


Lemma messageBytes_panic_iff (t : localTempData) :
  (exists msg, messageBytes t = Panic msg)
  <-> fullBytesLen t < 0
      \/ (0 < fullBytesLen t /\ 256 ^ fullBytesLen t <= Z.abs (m t)).
Proof.
  unfold messageBytes.
  destruct (Z.eqb_spec (fullBytesLen t) 0) as [Hz|Hnz].
  - split; [intros [msg H]; discriminate|lia].
  - unfold make_bytes.
    destruct (Z.ltb_spec (fullBytesLen t) 0) as [Hneg|Hpos];
      cbn [Go.bind].
    + split; [auto|eauto].
    + unfold bigInt_FillBytes.
      pose proof (bigInt_Bytes_fits (m t) (Z.to_nat (fullBytesLen t))) as Hfit.
      rewrite Z2Nat.id in Hfit by lia.
      destruct (Nat.leb_spec (length (bigInt_Bytes (m t)))
                  (Z.to_nat (fullBytesLen t))) as [Hle|Hgt].
      * split; [intros [msg H]; discriminate|].
        intros [H|[_ H]]; [lia|]. apply Hfit in Hle. lia.
      * split; [|eauto]. intros _. right. split; [lia|].
        destruct (Z.lt_ge_cases (Z.abs (m t)) (256 ^ fullBytesLen t)) as [H|H];
          [|exact H].
        apply Hfit in H. lia.
Qed.


(** When [Start] has aggregated R and the message segment panics (a
    negative declared length, or a message that does not fit in it), [Start]
    panics too, with the round left started. *)
Theorem Start_message_length_panics (round : round3) (rand1 : Reader)
    (R : ExtendedGroupElement) :
  started round = false ->
  aggregate (begin_round round) 0 (Parties (Params round))
    (GeScalarMultBase (bigIntToEncodedBytes (ri (temp round))))
    (Rand (Params round))
  = (rand1, Next R) ->
  fullBytesLen (temp round) < 0
  \/ (0 < fullBytesLen (temp round)
      /\ 256 ^ fullBytesLen (temp round) <= Z.abs (m (temp round))) ->
  exists msg,
    round3_Start round = (set_rand (begin_round round) rand1, Panic msg).
Proof.
  intros Hns Hagg Hlen.
  apply (proj2 (messageBytes_panic_iff (temp round))) in Hlen.
  destruct Hlen as [msg Hmsg]. exists msg.
  unfold round3_Start, nonceAndLambda. rewrite Hns.
  cbn [begin_round Params temp]. fold (begin_round round). rewrite Hagg.
  cbn [flow_bind]. unfold computeLambda, poseidonInputs.
  cbn [set_rand begin_round temp]. rewrite Hmsg. reflexivity.
Qed.

(** *** The acceptance table, slot by slot *)

Lemma slot_after_0 (msgs : list (option ParsedMessage)) (ok : list bool)
    (k : nat) :
  slot_after 0 msgs ok k
  = if (k <? length msgs)%nat
    then (fun b => b || acceptable (default None (msgs !! k))) <$> ok !! k
    else ok !! k.
Proof.
  unfold slot_after. cbn [Nat.leb andb Nat.add]. now rewrite Nat.sub_0_r.
Qed.

(** On a round whose acceptance table has a slot for every message slot,
    [Update] accepts exactly the slots that were accepted before or hold a
    broadcast share message; it leaves the slots beyond the messages and
    everything but the table as they were, returns no error, and returns
    true exactly when all the slots of the message positions are accepted
    afterwards. *)
Theorem Update_slots (round : round3) :
  (length (signRound3Messages (temp round)) <= length (ok round))%nat ->
  let msgs := signRound3Messages (temp round) in
  let round' := fst (round3_Update round) in
  (forall k,
     ok round' !! k
     = if (k <? length msgs)%nat
       then (fun b => b || acceptable (default None (msgs !! k)))
              <$> ok round !! k
       else ok round !! k)
  /\ snd (round3_Update round)
     = Ret (forallb (slot_true (ok round')) (seq 0 (length msgs)), None)
  /\ round' = set_ok round (ok round').
Proof.
  intros Hlen msgs round'. subst msgs round'. unfold round3_Update.
  destruct (updateLoop_spec (signRound3Messages (temp round)) 0 (ok round) true
              ltac:(simpl; lia)) as (ok1 & Hrun & Hl & Hk).
  rewrite Hrun. cbn [fst snd Go.bind andb set_ok ok].
  split; [|split; reflexivity].
  intros k. rewrite Hk. apply slot_after_0.
Qed.

Lemma updateLoop_short (msgs : list (option ParsedMessage)) :
  forall (j : nat) (ok : list bool) (ret : bool),
    (j <= length ok < j + length msgs)%nat ->
    snd (updateLoop j msgs ok ret) = Panic index_out_of_range.
Proof.
  induction msgs as [|msg rest IH]; intros j ok ret Hlen;
    cbn [length] in Hlen; [lia|].
  cbn [updateLoop]. unfold index.
  destruct (ok !! j) as [b|] eqn:Hj; [|reflexivity].
  apply lookup_lt_Some in Hj.
  destruct b; [apply IH; lia|].
  destruct msg as [msg'|]; [|apply IH; lia].
  destruct (negb (round3_CanAccept msg')); apply IH;
    rewrite ?length_insert; lia.
Qed.

(** When the acceptance table has fewer slots than there are message slots,
    [Update] panics on the first position beyond the table. *)
Theorem Update_short_table_panics (round : round3) :
  (length (ok round) < length (signRound3Messages (temp round)))%nat ->
  snd (round3_Update round) = Panic index_out_of_range.
Proof.
  intros Hlen. unfold round3_Update.
  pose proof (updateLoop_short (signRound3Messages (temp round)) 0 (ok round)
                true ltac:(lia)) as H.
  destruct (updateLoop _ _ _ _) as [ok' res]. cbn [snd] in *. now rewrite H.
Qed.

(** *** What [Start] leaves behind *)

(** When [Start] returns nil, it has computed a share, stored it as
    [temp.si], put the broadcast that carries it (as an integer, from this
    party) at this party's index of the round 3 messages, which is in
    range, and sent that one message; the message is one that [Update]
    accepts. *)
Theorem Start_success_broadcast (round round' : round3) :
  round3_Start round = (round', Ret None) ->
  exists share : array 32,
    let msg :=
      NewSignRound3Message (PartyId (Params round))
        (encodedBytesToBigInt share) in
    let i := Index (PartyId (Params round)) in
    started round = false
    /\ si (temp round') = Some share
    /\ out round' = out round ++ [msg]
    /\ 0 <= i < Z.of_nat (length (signRound3Messages (temp round)))
    /\ signRound3Messages (temp round')
       = <[Z.to_nat i := Some msg]> (signRound3Messages (temp round))
    /\ round3_CanAccept msg = true.
Proof.
  unfold round3_Start. destruct (started round) eqn:Hns; [discriminate|].
  destruct (nonceAndLambda (begin_round round)) as [rand' [[e l]|e|msg]];
    try discriminate.
  cbn [set_rand begin_round set_temp set_si_r temp Params PartyId
       signRound3Messages].
  unfold store_at.
  destruct (Z.leb_spec 0 (Index (PartyId (Params round)))) as [H0|];
    cbn [andb]; [|discriminate].
  destruct (Z.ltb_spec (Index (PartyId (Params round)))
              (Z.of_nat (length (signRound3Messages (temp round)))))
    as [H1|]; [|discriminate].
  intros [= <-]. eexists. cbn.
  repeat split; try reflexivity; try assumption.
Qed.

(** [Start] then [Update]: after a [Start] that returned nil on a round
    whose acceptance table has a slot for every message slot, [Update]
    marks this party's own slot accepted. *)
Theorem Start_then_Update (round round' : round3) :
  round3_Start round = (round', Ret None) ->
  (length (signRound3Messages (temp round)) <= length (ok round))%nat ->
  ok (fst (round3_Update round'))
    !! Z.to_nat (Index (PartyId (Params round)))
  = Some true.
Proof.
  intros Hstart Hlen.
  assert (Hpost :
            exists msg,
              round3_CanAccept msg = true
              /\ 0 <= Index (PartyId (Params round))
                 < Z.of_nat (length (signRound3Messages (temp round)))
              /\ signRound3Messages (temp round')
                 = <[Z.to_nat (Index (PartyId (Params round))) := Some msg]>
                     (signRound3Messages (temp round))
              /\ length (ok round') = length (ok round)).
  { revert Hstart. unfold round3_Start.
    destruct (started round) eqn:Hns; [discriminate|].
    destruct (nonceAndLambda (begin_round round)) as [rand' [[e l]|e|msg]];
      try discriminate.
    cbn [set_rand begin_round set_temp set_si_r temp Params PartyId
         signRound3Messages].
    unfold store_at.
    destruct (Z.leb_spec 0 (Index (PartyId (Params round)))) as [H0|];
      cbn [andb]; [|discriminate].
    destruct (Z.ltb_spec (Index (PartyId (Params round)))
                (Z.of_nat (length (signRound3Messages (temp round)))))
      as [H1|]; [|discriminate].
    intros [= <-]. eexists. cbn.
    repeat split; try reflexivity; try assumption.
    unfold resetOK. now rewrite length_map. }
  destruct Hpost as (msg & Hcan & Hi & Hmsgs & Hok).
  set (i := Z.to_nat (Index (PartyId (Params round)))) in *.
  assert (Hlt : (i < length (signRound3Messages (temp round)))%nat)
    by (unfold i; lia).
  unfold round3_Update.
  destruct (updateLoop_spec (signRound3Messages (temp round')) 0 (ok round')
              true) as (ok1 & Hrun & _ & Hk).
  { rewrite Hmsgs, length_insert. cbn. lia. }
  rewrite Hrun. cbn [fst set_ok ok]. rewrite Hk, slot_after_0.
  rewrite Hmsgs, length_insert.
  destruct (Nat.ltb_spec i (length (signRound3Messages (temp round))));
    [|lia].
  rewrite list_lookup_insert_eq by exact Hlt.
  cbn [default id acceptable]. rewrite Hcan.
  destruct (ok round' !! i) as [b|] eqn:Hb.
  - cbn. now rewrite orb_true_r.
  - apply lookup_ge_None in Hb. lia.
Qed.


(** *** The errors of [Start] and what a success implies *)

Lemma checkPeer_abort_cases (round : round3) (j : nat) (Pj : PartyID)
    (e : tssError) :
  checkPeer round j Pj = Abort e -> In e (peer_errors round Pj).
Proof.
  unfold checkPeer, peer_errors.
  destruct (index (signRound2Messages (temp round)) j) as [msg|];
    cbn [lift flow_bind]; [|discriminate].
  destruct (asSignRound2Message msg) as [r2msg|];
    cbn [lift flow_bind]; [|discriminate].
  destruct (index (cjs (temp round)) j) as [Cj|];
    cbn [lift flow_bind]; [|discriminate].
  destruct (DeCommit Cj (UnmarshalDeCommitment r2msg)) as [opened coords].
  destruct opened; cbn [negb]; [|intros [= <-]; cbn; tauto].
  destruct coords as [|c0 [|c1 [|c2 rest]]];
    try (intros [= <-]; cbn; tauto).
  destruct (NewECPoint (EC (Params round)) c0 c1) as [P|err];
    cbn [deref Go.bind lift flow_bind]; [|discriminate].
  destruct (UnmarshalZKProof r2msg (EC (Params round))) as [proof [err|]].
  - intros [= <-]. cbn. tauto.
  - destruct (Schnorr.ZKProof_Verify _ _ _) as [[|]|];
      cbn [lift flow_bind negb]; try discriminate.
    intros [= <-]. cbn. tauto.
Qed.

Lemma peers_from_lookup (ps : list PartyID) :
  forall j k P,
    In (k, P) (peers_from j ps) <-> (j <= k)%nat /\ ps !! (k - j)%nat = Some P.
Proof.
  induction ps as [|Q ps IH]; intros j k P; cbn [peers_from In].
  - split; [tauto|]. intros [_ H]. discriminate.
  - rewrite IH. split.
    + intros [[= <- <-]|[Hle Hl]].
      * split; [lia|]. now rewrite Nat.sub_diag.
      * split; [lia|]. replace (k - j)%nat with (S (k - S j)) by lia.
        exact Hl.
    + intros [Hle Hl]. destruct (Nat.eq_dec k j) as [->|Hne].
      * left. rewrite Nat.sub_diag in Hl. cbn in Hl. congruence.
      * right. split; [lia|].
        replace (k - j)%nat with (S (k - S j)) in Hl by lia. exact Hl.
Qed.

Lemma aggregate_abort (round : round3) (ps : list PartyID) :
  forall (j : nat) (R : ExtendedGroupElement) (rand rand' : Reader)
         (e : tssError),
    aggregate round j ps R rand = (rand', Abort e) ->
    exists k Pk,
      In (k, Pk) (peers_from j ps)
      /\ Z.of_nat k <> Index (PartyId (Params round))
      /\ checkPeer round k Pk = Abort e.
Proof.
  induction ps as [|Pj ps IH]; intros j R rand rand' e Hrun;
    cbn [aggregate] in Hrun; [discriminate|].
  cbn [peers_from In].
  destruct (Z.eqb_spec (Z.of_nat j) (Index (PartyId (Params round))))
    as [Heq|Hne].
  - apply IH in Hrun as (k & Pk & Hin & Hk & Hpeer). eauto 6.
  - destruct (checkPeer round j Pj) as [Rj|e'|msg] eqn:Hpeer.
    + destruct (ecPointToExtendedElement _ _ _ rand) as [ext rand1].
      apply IH in Hrun as (k & Pk & Hin & Hk & Hpeer'). eauto 6.
    + injection Hrun as _ <-. exists j, Pj. auto.
    + discriminate.
Qed.

Lemma aggregate_Next_all (round : round3) (ps : list PartyID) :
  forall (j : nat) (R R' : ExtendedGroupElement) (rand rand' : Reader),
    aggregate round j ps R rand = (rand', Next R') ->
    forall k Pk,
      In (k, Pk) (peers_from j ps) ->
      Z.of_nat k <> Index (PartyId (Params round)) ->
      exists Rk, checkPeer round k Pk = Next Rk.
Proof.
  induction ps as [|Pj ps IH]; intros j R R' rand rand' Hrun k Pk Hin Hk;
    cbn [aggregate peers_from In] in *; [destruct Hin|].
  destruct (Z.eqb_spec (Z.of_nat j) (Index (PartyId (Params round))))
    as [Heq|Hne].
  - destruct Hin as [[= <- <-]|Hin]; [contradiction|]. eauto.
  - destruct (checkPeer round j Pj) as [Rj|e'|msg] eqn:Hpeer;
      try discriminate.
    destruct (ecPointToExtendedElement _ _ _ rand) as [ext rand1].
    destruct Hin as [[= <- <-]|Hin]; eauto.
Qed.

(** The errors [Start] can return: that the round was already started; for
    a peer of the party list other than this party, one of the four errors
    of its checks (the decommitment ones blaming nobody, the proof ones
    blaming that peer); or a failure of the hash, blaming nobody. The error
    for a point that could not be reconstructed is not among them. *)
Theorem Start_errors (round round' : round3) (e : tssError) :
  round3_Start round = (round', Ret (Some e)) ->
  e = WrapError round "round already started" []
  \/ (exists err,
        e = WrapError (begin_round round)
              (errors_Wrap err "Poseidon hashing failed") [])
  \/ (exists j Pj,
        Parties (Params round) !! j = Some Pj
        /\ Z.of_nat j <> Index (PartyId (Params round))
        /\ In e (peer_errors (begin_round round) Pj)).
Proof.
  unfold round3_Start. destruct (started round).
  { intros [= _ <-]. left. reflexivity. }
  unfold nonceAndLambda.
  destruct (aggregate _ _ _ _ _) as [rand' [R|e'|msg]] eqn:Hagg;
    cbn [flow_bind].
  - unfold computeLambda.
    destruct (poseidonInputs _ _) as [inputs|]; cbn [lift flow_bind];
      [|discriminate].
    destruct (flattenByteSlices inputs) as [flat|]; cbn [lift flow_bind];
      [|discriminate].
    destruct (poseidon_HashBytes flat) as [h|err].
    + cbn [flow_bind]. destruct (store_at _ _ _); discriminate.
    + intros [= _ <-]. right. left. exists err. reflexivity.
  - intros [= _ <-]. right. right.
    apply aggregate_abort in Hagg as (k & Pk & Hin & Hk & Hpeer).
    apply (proj1 (peers_from_lookup _ 0 k Pk)) in Hin as [_ Hl].
    rewrite Nat.sub_0_r in Hl.
    exists k, Pk. split; [exact Hl|]. split; [exact Hk|].
    now apply (checkPeer_abort_cases _ k).
  - discriminate.
Qed.

Lemma checkPeer_Next_inv (round : round3) (j : nat) (Pj : PartyID)
    (Rj : ECPoint) :
  checkPeer round j Pj = Next Rj ->
  exists msg r2msg Cj c0 c1 P proof,
    signRound2Messages (temp round) !! j = Some (Some msg)
    /\ Content msg = SignRound2Content r2msg
    /\ cjs (temp round) !! j = Some Cj
    /\ DeCommit Cj (UnmarshalDeCommitment r2msg) = (true, [c0; c1])
    /\ NewECPoint (EC (Params round)) c0 c1 = inl P
    /\ UnmarshalZKProof r2msg (EC (Params round)) = (proof, None)
    /\ Schnorr.ZKProof_Verify proof
         (AppendBigIntToBytesSlice (ssid (temp round)) (Z.of_nat j))
         (Some (EightInvEight P)) = Ret true
    /\ Rj = EightInvEight P.
Proof.
  unfold checkPeer, index.
  destruct (signRound2Messages (temp round) !! j) as [[msg|]|];
    cbn [lift flow_bind asSignRound2Message deref Go.bind];
    try discriminate.
  destruct (Content msg) as [|r2msg|s] eqn:Hcontent;
    cbn [lift flow_bind]; try discriminate.
  destruct (cjs (temp round) !! j) as [Cj|]; cbn [lift flow_bind];
    [|discriminate].
  destruct (DeCommit Cj (UnmarshalDeCommitment r2msg)) as [opened coords]
    eqn:Hde.
  destruct opened; cbn [negb]; [|discriminate].
  destruct coords as [|c0 [|c1 [|c2 rest]]]; try discriminate.
  destruct (NewECPoint (EC (Params round)) c0 c1) as [P|err] eqn:Hpoint;
    cbn [deref Go.bind lift flow_bind]; [|discriminate].
  destruct (UnmarshalZKProof r2msg (EC (Params round))) as [proof [err|]]
    eqn:Hproof; [discriminate|].
  destruct (Schnorr.ZKProof_Verify _ _ _) as [[|]|] eqn:Hverify;
    cbn [lift flow_bind negb]; try discriminate.
  intros [= <-]. exists msg, r2msg, Cj, c0, c1, P, proof.
  repeat split; assumption || reflexivity.
Qed.

(** When [Start] returns nil, every party of the list other than this party
    had a round 2 message whose decommitment opened its commitment to two
    coordinates of a point, and whose proof [Verify] accepted for that
    point after cofactor clearing, under the session id extended by the
    peer's position. *)
Theorem Start_success_peers_verified (round round' : round3) (j : nat)
    (Pj : PartyID) :
  round3_Start round = (round', Ret None) ->
  Parties (Params round) !! j = Some Pj ->
  Z.of_nat j <> Index (PartyId (Params round)) ->
  exists msg r2msg Cj c0 c1 P proof,
    signRound2Messages (temp round) !! j = Some (Some msg)
    /\ Content msg = SignRound2Content r2msg
    /\ cjs (temp round) !! j = Some Cj
    /\ DeCommit Cj (UnmarshalDeCommitment r2msg) = (true, [c0; c1])
    /\ NewECPoint (EC (Params round)) c0 c1 = inl P
    /\ UnmarshalZKProof r2msg (EC (Params round)) = (proof, None)
    /\ Schnorr.ZKProof_Verify proof
         (AppendBigIntToBytesSlice (ssid (temp round)) (Z.of_nat j))
         (Some (EightInvEight P)) = Ret true.
Proof.
  intros Hstart Hl Hj. revert Hstart.
  unfold round3_Start. destruct (started round); [discriminate|].
  unfold nonceAndLambda.
  destruct (aggregate _ _ _ _ _) as [rand' [R|e'|msg]] eqn:Hagg;
    cbn [flow_bind]; try discriminate.
  intros _.
  destruct (aggregate_Next_all _ _ _ _ _ _ _ Hagg j Pj) as [Rj Hpeer].
  - apply peers_from_lookup. split; [lia|]. now rewrite Nat.sub_0_r.
  - exact Hj.
  - apply checkPeer_Next_inv in Hpeer
      as (msg & r2msg & Cj & c0 & c1 & P & proof & H).
    exists msg, r2msg, Cj, c0, c1, P, proof. tauto.
Qed.

(** *** What [Start] does not look at *)

Lemma checkPeer_with_round2 (round : round3) (i j : nat) (Pj : PartyID)
    (x : option ParsedMessage) (c : HashCommitment) :
  j <> i ->
  checkPeer
    (begin_round
       (with_round2 round (<[i := x]> (signRound2Messages (temp round)))
          (<[i := c]> (cjs (temp round))))) j Pj
  = checkPeer (begin_round round) j Pj.
Proof.
  intros Hne. unfold checkPeer, index.
  cbn [begin_round with_round2 set_temp temp signRound2Messages cjs ssid
       Params].
  rewrite !list_lookup_insert_ne by congruence. reflexivity.
Qed.

Lemma aggregate_with_round2 (round : round3) (i : nat)
    (x : option ParsedMessage) (c : HashCommitment) (ps : list PartyID) :
  Index (PartyId (Params round)) = Z.of_nat i ->
  forall (j : nat) (R : ExtendedGroupElement) (rand : Reader),
    aggregate
      (begin_round
         (with_round2 round (<[i := x]> (signRound2Messages (temp round)))
            (<[i := c]> (cjs (temp round))))) j ps R rand
    = aggregate (begin_round round) j ps R rand.
Proof.
  intros Hi. induction ps as [|Pj ps IH]; intros j R rand; [reflexivity|].
  cbn [aggregate]. cbn [begin_round with_round2 set_temp Params].
  destruct (Z.eqb_spec (Z.of_nat j) (Index (PartyId (Params round))))
    as [Heq|Hne]; [apply IH|].
  rewrite checkPeer_with_round2 by (intros ->; congruence).
  destruct (checkPeer (begin_round round) j Pj) as [Rj|e|msg];
    try reflexivity.
  destruct (ecPointToExtendedElement _ _ _ rand) as [ext rand1]. apply IH.
Qed.

Lemma nonceAndLambda_with_round2 (round : round3) (i : nat)
    (x : option ParsedMessage) (c : HashCommitment) :
  Index (PartyId (Params round)) = Z.of_nat i ->
  nonceAndLambda
    (begin_round
       (with_round2 round (<[i := x]> (signRound2Messages (temp round)))
          (<[i := c]> (cjs (temp round)))))
  = nonceAndLambda (begin_round round).
Proof.
  intros Hi. unfold nonceAndLambda.
  set (round2 := with_round2 round _ _).
  change (Parties (Params (begin_round round2)))
    with (Parties (Params (begin_round round))).
  change (Rand (Params (begin_round round2)))
    with (Rand (Params (begin_round round))).
  change (ri (temp (begin_round round2)))
    with (ri (temp (begin_round round))).
  unfold round2. rewrite (aggregate_with_round2 round i x c _ Hi).
  destruct (aggregate _ _ _ _ _) as [rand' [R|e|msg]]; reflexivity.
Qed.

(** [Start] never looks at this party's own round 2 message or commitment:
    with anything else stored at the party's own index, it returns the same
    error, nil or panic. *)
Theorem Start_ignores_own_round2 (round : round3) (i : nat)
    (x : option ParsedMessage) (c : HashCommitment) :
  Index (PartyId (Params round)) = Z.of_nat i ->
  snd (round3_Start
         (with_round2 round (<[i := x]> (signRound2Messages (temp round)))
            (<[i := c]> (cjs (temp round)))))
  = snd (round3_Start round).
Proof.
  intros Hi. unfold round3_Start.
  rewrite (nonceAndLambda_with_round2 round i x c Hi).
  set (round2 := with_round2 round _ _).
  change (started round2) with (started round).
  destruct (started round); [reflexivity|].
  destruct (nonceAndLambda (begin_round round)) as [rand' [[e l]|e|msg]];
    try reflexivity.
  unfold store_at. cbn.
  destruct ((0 <=? Index (PartyId (Params round)))
            && (Index (PartyId (Params round))
                <? Z.of_nat (length (signRound3Messages (temp round)))));
    reflexivity.
Qed.

(** *** Messages that are not there *)

(** When [Start] reaches a peer whose round 2 message is missing (the slot
    is beyond the stored messages or holds nil) or is not a round 2
    message, it panics; no error is returned. *)
Theorem Start_missing_message_panics (round : round3)
    (pre post : list PartyID) (Pj : PartyID) (rand1 : Reader)
    (R1 : ExtendedGroupElement) :
  started round = false ->
  Parties (Params round) = pre ++ Pj :: post ->
  Z.of_nat (length pre) <> Index (PartyId (Params round)) ->
  aggregate (begin_round round) 0 pre
    (GeScalarMultBase (bigIntToEncodedBytes (ri (temp round))))
    (Rand (Params round))
  = (rand1, Next R1) ->
  signRound2Messages (temp round) !! length pre = None
  \/ signRound2Messages (temp round) !! length pre = Some None
  \/ (exists msg,
        signRound2Messages (temp round) !! length pre = Some (Some msg)
        /\ forall r2msg, Content msg <> SignRound2Content r2msg) ->
  exists msg,
    round3_Start round = (set_rand (begin_round round) rand1, Panic msg).
Proof.
  intros Hns Hsplit Hself Hpre Hmsg.
  assert (Hpeer : exists msg,
             checkPeer (begin_round round) (length pre) Pj = Crash msg).
  { unfold checkPeer, index. cbn [begin_round temp].
    destruct Hmsg as [H|[H|(msg & H & Hcontent)]]; rewrite H;
      cbn [lift flow_bind asSignRound2Message deref Go.bind]; eauto.
    destruct (Content msg) as [|r2msg|s] eqn:Hc; cbn [lift flow_bind]; eauto.
    exfalso. now apply (Hcontent r2msg). }
  destruct Hpeer as [msg Hpeer]. exists msg.
  now apply (Start_peer_crash round pre post Pj rand1 R1).
Qed.

(** *** When [Start] succeeds *)



End WithLib.

(** *** Concrete rounds *)

#[local] Existing Instance Toy.lib.
#[local] Existing Instance Toy.slib.

Lemma computeLambda_input_witness :
  let encodedPubKey := Toy.encode 6 in
  let input :=
    slice_of (Toy.encode 4) ++ slice_of encodedPubKey
    ++ bigInt_Bytes 1234 in
  length input = (64 + length (bigInt_Bytes 1234))%nat
  /\ computeLambda (lib := Toy.lib) (slib := Toy.slib) Toy.round0
       (Toy.encode 4)
     = match poseidon_HashBytes (SigningLib := Toy.slib) input with
       | inl poseidonHash =>
           Next (ScReduce (copy_array 64 (bigInt_Bytes poseidonHash)))
       | inr err =>
           Abort (WrapError Toy.round0
                    (errors_Wrap err "Poseidon hashing failed") [])
       end.
Proof.
  apply (computeLambda_input (lib := Toy.lib) (slib := Toy.slib) Toy.round0
           (Toy.encode 4) (bigInt_Bytes 1234)).
  - reflexivity.
  - discriminate.
Defined.

Lemma Start_message_length_panics_witness :
  exists msg,
    round3_Start ToyRounds.narrow_message
    = (set_rand (begin_round ToyRounds.narrow_message) [], Panic msg).
Proof.
  apply (Start_message_length_panics (lib := Toy.lib) (slib := Toy.slib)
           ToyRounds.narrow_message [] (15, 2)).
  - reflexivity.
  - reflexivity.
  - right. cbn. lia.
Defined.

Lemma Update_slots_witness :
  let msgs := signRound3Messages (temp Toy.waiting) in
  let round' := fst (round3_Update Toy.waiting) in
  (forall k,
     ok round' !! k
     = if (k <? length msgs)%nat
       then (fun b => b || acceptable (default None (msgs !! k)))
              <$> ok Toy.waiting !! k
       else ok Toy.waiting !! k)
  /\ snd (round3_Update Toy.waiting)
     = Ret (forallb (slot_true (ok round')) (seq 0 (length msgs)), None)
  /\ round' = set_ok Toy.waiting (ok round').
Proof.
  apply (Update_slots (lib := Toy.lib) (slib := Toy.slib) Toy.waiting).
  cbn. lia.
Defined.

Lemma Update_short_table_panics_witness :
  snd (round3_Update ToyRounds.short_table) = Panic index_out_of_range.
Proof.
  apply (Update_short_table_panics (lib := Toy.lib) (slib := Toy.slib)
           ToyRounds.short_table).
  cbn. lia.
Defined.

Lemma Start_success_broadcast_witness :
  exists share : array 32,
    let msg :=
      NewSignRound3Message (PartyId (Params Toy.round0))
        (encodedBytesToBigInt share) in
    let i := Index (PartyId (Params Toy.round0)) in
    started Toy.round0 = false
    /\ si (temp (fst (round3_Start Toy.round0))) = Some share
    /\ out (fst (round3_Start Toy.round0)) = out Toy.round0 ++ [msg]
    /\ 0 <= i < Z.of_nat (length (signRound3Messages (temp Toy.round0)))
    /\ signRound3Messages (temp (fst (round3_Start Toy.round0)))
       = <[Z.to_nat i := Some msg]> (signRound3Messages (temp Toy.round0))
    /\ round3_CanAccept msg = true.
Proof.
  apply (Start_success_broadcast (lib := Toy.lib) (slib := Toy.slib)
           Toy.round0 (fst (round3_Start Toy.round0))).
  reflexivity.
Defined.

Lemma Start_then_Update_witness :
  ok (fst (round3_Update (fst (round3_Start Toy.round0))))
    !! Z.to_nat (Index (PartyId (Params Toy.round0)))
  = Some true.
Proof.
  apply (Start_then_Update (lib := Toy.lib) (slib := Toy.slib) Toy.round0
           (fst (round3_Start Toy.round0))).
  - reflexivity.
  - cbn. lia.
Defined.


Lemma Start_errors_witness :
  let e :=
    WrapError (begin_round ToyRounds.bad_proof) "failed to prove Rj"
      [Toy.party 2] in
  e = WrapError ToyRounds.bad_proof "round already started" []
  \/ (exists err,
        e = WrapError (begin_round ToyRounds.bad_proof)
              (errors_Wrap err "Poseidon hashing failed") [])
  \/ (exists j Pj,
        Parties (Params ToyRounds.bad_proof) !! j = Some Pj
        /\ Z.of_nat j <> Index (PartyId (Params ToyRounds.bad_proof))
        /\ In e (peer_errors (begin_round ToyRounds.bad_proof) Pj)).
Proof.
  apply (Start_errors (lib := Toy.lib) (slib := Toy.slib) ToyRounds.bad_proof
           (fst (round3_Start ToyRounds.bad_proof))).
  reflexivity.
Defined.

Lemma Start_success_peers_verified_witness :
  exists msg r2msg Cj c0 c1 P proof,
    signRound2Messages (temp Toy.round0) !! 1%nat = Some (Some msg)
    /\ Content msg = SignRound2Content r2msg
    /\ cjs (temp Toy.round0) !! 1%nat = Some Cj
    /\ DeCommit Cj (UnmarshalDeCommitment r2msg) = (true, [c0; c1])
    /\ NewECPoint (EC (Params Toy.round0)) c0 c1 = inl P
    /\ UnmarshalZKProof r2msg (EC (Params Toy.round0)) = (proof, None)
    /\ Schnorr.ZKProof_Verify proof
         (AppendBigIntToBytesSlice (ssid (temp Toy.round0)) (Z.of_nat 1))
         (Some (EightInvEight P)) = Ret true.
Proof.
  apply (Start_success_peers_verified (lib := Toy.lib) (slib := Toy.slib)
           Toy.round0 (fst (round3_Start Toy.round0)) 1 (Toy.party 1)).
  - reflexivity.
  - reflexivity.
  - discriminate.
Defined.

Lemma Start_ignores_own_round2_witness :
  snd (round3_Start
         (with_round2 Toy.round0
            (<[0%nat := None]> (signRound2Messages (temp Toy.round0)))
            (<[0%nat := 0]> (cjs (temp Toy.round0)))))
  = snd (round3_Start Toy.round0).
Proof.
  apply (Start_ignores_own_round2 (lib := Toy.lib) (slib := Toy.slib)
           Toy.round0 0 None 0).
  reflexivity.
Defined.

Lemma Start_missing_message_panics_witness :
  exists msg,
    round3_Start ToyRounds.missing_message
    = (set_rand (begin_round ToyRounds.missing_message) [1], Panic msg).
Proof.
  apply (Start_missing_message_panics (lib := Toy.lib) (slib := Toy.slib)
           ToyRounds.missing_message [Toy.party 0] [Toy.party 2]
           (Toy.party 1) [1] (3, 1)).
  - reflexivity.
  - reflexivity.
  - discriminate.
  - reflexivity.
  - right. left. reflexivity.
Defined.


Lemma empty_segment_iff_witness :
  In [] [slice_of (Toy.encode 4); slice_of (Toy.encode 6); bigInt_Bytes 1234]
  <-> fullBytesLen (temp Toy.round0) = 0 /\ m (temp Toy.round0) = 0.
Proof.
  apply (empty_segment_iff (lib := Toy.lib) (slib := Toy.slib) Toy.round0
           (Toy.encode 4)).
  reflexivity.
Defined.

Lemma Start_locals_of_Start_witness :
  exists encodedR lambdaReduced,
    Start_locals Toy.round0 = Some (encodedR, lambdaReduced)
    /\ r (temp (fst (round3_Start Toy.round0)))
       = Some (encodedBytesToBigInt encodedR)
    /\ si (temp (fst (round3_Start Toy.round0)))
       = Some (ScMulAdd lambdaReduced
                 (bigIntToEncodedBytes (wi (temp Toy.round0)))
                 (bigIntToEncodedBytes (ri (temp Toy.round0)))).
Proof.
  apply (Start_locals_of_Start (lib := Toy.lib) (slib := Toy.slib) Toy.round0
           (fst (round3_Start Toy.round0)));
    reflexivity.
Defined.

End SigningExtra.
